(** * django-parler: single-form admin, registry and example view

    A shallow embedding of [parler/singleformadmin.py] and
    [example/article/views.py], together with the translation registry
    ([_parler_meta]) that the model-construction tests exercise.

    Python dictionaries are [gmap]s, sequences are lists, attribute
    assignment is explicit state passing and exceptions are the [Raise]
    branch of [Result].  The code targets Python 2 ([zip] returns a list). *)

From Stdlib Require Import ZArith List Lia.
From stdpp Require Import base option list strings gmap fin_maps.

Local Open Scope stdpp_scope.

(** ** Python exceptions and fallible computations *)

Module Py.

Inductive Exc : Type :=
| TypeError
| IndexError
| ValueError
| AttributeError
| KeyError
| RuntimeError
| FieldDoesNotExist
| TranslationDoesNotExist.

Inductive Result (A : Type) : Type :=
| Ok (a : A)
| Raise (e : Exc).
Arguments Ok {A} a.
Arguments Raise {A} e.

Definition bind {A B : Type} (f : A → Result B) (r : Result A) : Result B :=
  match r with
  | Ok a => f a
  | Raise e => Raise e
  end.

#[global] Instance Result_ret : MRet Result := @Ok.
#[global] Instance Result_bind : MBind Result := @bind.

(** A Python [for x in xs: body] whose body may raise: the state is
    threaded from left to right and the first exception aborts the loop. *)
Fixpoint for_each {A S : Type} (body : A → S → Result S) (xs : list A) (s : S)
  : Result S :=
  match xs with
  | [] => Ok s
  | x :: rest =>
      match body x s with
      | Ok s' => for_each body rest s'
      | Raise e => Raise e
      end
  end.

(** [seq.index(x)]: position of the first occurrence, [ValueError] when
    there is none. *)
Fixpoint index (x : string) (xs : list string) : Result nat :=
  match xs with
  | [] => Raise ValueError
  | y :: rest =>
      if decide (y = x) then Ok 0
      else match index x rest with
           | Ok i => Ok (S i)
           | Raise e => Raise e
           end
  end.

(** Values that travel through forms and translated attributes. *)
Inductive Value : Type :=
| VNone
| VStr (s : string)
| VInt (z : Z).

#[global] Instance Value_inhabited : Inhabited Value := populate VNone.
#[global] Instance Value_eq_dec : EqDecision Value.
Proof. solve_decision. Defined.

End Py.
Import Py.

(** ** Settings read by the code *)

(** An entry of [PARLER_LANGUAGES[site_id]]; [ld_code] is its ['code'] key. *)
Record LangDict := { ld_code : string; ld_fallbacks : list string }.

Record Settings := {
  SITE_ID : option Z;
  PARLER_LANGUAGES : gmap Z (list LangDict);
  PARLER_DEFAULT_LANGUAGE_CODE : string;
  PARLER_BACKEND : string
}.

(** ** singleformadmin.py: module-level helpers *)

(** [_replace_field(fields, name, replacement)].  Both slices use
    [fields.index(name)], which raises when [name] does not occur. *)
Definition _replace_field (fields : list string) (name : string)
    (replacement : list string) : Result (list string) :=
  i ← index name fields;
  j ← index name fields;
  Ok (take i fields ++ replacement ++ drop (j + 1) fields).

(** [_get_available_language_codes()]: the codes configured for
    [settings.SITE_ID]; no site or an unlisted site gives no code. *)
Definition _get_available_language_codes (cfg : Settings) : list string :=
  let site_id := SITE_ID cfg in
  let lang_dicts :=
    match site_id with
    | Some sid => default [] (PARLER_LANGUAGES cfg !! sid)
    | None => []
    end in
  ld_code <$> lang_dicts.

(** ['{}_{}'.format(name, code)] *)
Definition format_name (name code : string) : string :=
  name +:+ "_" +:+ code.

Definition _get_translated_fields_names (cfg : Settings) (name : string)
  : list (string * string) :=
  (λ code, (code, format_name name code)) <$> _get_available_language_codes cfg.

Definition _get_default_language (cfg : Settings) : string :=
  PARLER_DEFAULT_LANGUAGE_CODE cfg.

(** ** Form classes under construction *)

(** Keyword arguments ([**kwargs]); values are kept by their text. *)
Abbreviation Kwargs := (gmap string string).

(** A form field object, with the attributes the code assigns. *)
Record FormField := {
  required : bool;
  label : string;
  language_code : option string;
  ff_kwargs : Kwargs
}.

Record ModelField := {
  mf_name : string;
  editable : bool
}.

(** A translations model: [get_translated_fields()] lists the names of its
    fields and [_meta.get_field(name)] finds one by name. *)
Record TranslationsModel := {
  tm_name : string;
  tm_fields : list ModelField
}.

Definition get_translated_fields (tm : TranslationsModel) : list string :=
  mf_name <$> tm_fields tm.

Definition get_field (tm : TranslationsModel) (name : string) : Result ModelField :=
  match find (λ f, bool_decide (mf_name f = name)) (tm_fields tm) with
  | Some f => Ok f
  | None => Raise FieldDoesNotExist
  end.

(** The shared model as the form code sees it:
    [_parler_meta.get_all_models()]. *)
Record Model := {
  model_name : string;
  get_all_models : list TranslationsModel
}.

(** The value of a [fields] option: [None], ['__all__'] or a sequence. *)
Inductive PyFields : Type :=
| PyNone
| PyAll
| PySeq (names : list string).

(** An inner [class Meta]; an attribute that the class does not define is
    [None] at the outer level. *)
Record MetaObj := {
  o_model : option (option Model);
  o_fields : option PyFields;
  o_exclude : option (option (list string));
  o_widgets : option (option (gmap string string))
}.

(** [ModelFormOptions], the [_meta] of an existing form class: every option
    is present. *)
Record ModelFormOptions := {
  opt_model : option Model;
  opt_fields : PyFields;
  opt_exclude : option (list string);
  opt_widgets : option (gmap string string)
}.

(** What a class dictionary ([attrs]) or a base class may bind a name to. *)
Inductive AttrValue : Type :=
| AField (f : FormField)
| APlaceholder (kwargs : Kwargs)      (* a TranslatedField placeholder *)
| AMeta (m : MetaObj)                 (* class Meta *)
| AOther (repr : string).             (* methods, callbacks, constants *)

Definition is_placeholder (v : AttrValue) : bool :=
  match v with APlaceholder _ => true | _ => false end.

(** The base classes, seen through [_get_mro_attribute(bases, name)]: the
    first base that has the attribute provides it. *)
Record Bases := {
  bases_meta : option ModelFormOptions;            (* '_meta' *)
  bases_base_fields : option (gmap string FormField); (* 'base_fields' *)
  bases_attrs : gmap string AttrValue              (* any other name *)
}.

(** The objects that class construction mutates: the [attrs] dictionary
    (the [Meta] class is the value bound to ["Meta"], so that assigning its
    attributes is seen through [attrs]) and the inherited [_meta], which
    [form_new_meta] aliases when [attrs] has no ["Meta"]. *)
Record State := {
  attrs : gmap string AttrValue;
  form_meta : ModelFormOptions
}.

Definition set_attrs (a : gmap string AttrValue) (st : State) : State :=
  {| attrs := a; form_meta := form_meta st |}.

(** [form_new_meta = attrs.get('Meta', form_meta)], as an object with optional
    attributes.  A ["Meta"] entry that is not a class has none of them. *)
Definition form_new_meta (st : State) : MetaObj :=
  match attrs st !! "Meta" with
  | Some (AMeta m) => m
  | Some _ =>
      {| o_model := None; o_fields := None; o_exclude := None; o_widgets := None |}
  | None =>
      let o := form_meta st in
      {| o_model := Some (opt_model o); o_fields := Some (opt_fields o);
         o_exclude := Some (opt_exclude o); o_widgets := Some (opt_widgets o) |}
  end.

(** [form_new_meta.fields = value].  The assignment goes to the [Meta] class
    or, without one, to the inherited options object.  A ["Meta"] entry that
    is not a class never gets here: [__new__] has failed on its [model]. *)
Definition set_form_new_meta_fields (value : PyFields) (st : State) : Result State :=
  match attrs st !! "Meta" with
  | Some (AMeta m) =>
      Ok (set_attrs (<["Meta" := AMeta {| o_model := o_model m; o_fields := Some value;
                                          o_exclude := o_exclude m;
                                          o_widgets := o_widgets m |}]> (attrs st)) st)
  | Some _ => Raise AttributeError
  | None =>
      let o := form_meta st in
      Ok {| attrs := attrs st;
            form_meta := {| opt_model := opt_model o; opt_fields := value;
                            opt_exclude := opt_exclude o;
                            opt_widgets := opt_widgets o |} |}
  end.

(** ** singleformadmin.py: the form metaclass *)

Section FormConstruction.

Variable cfg : Settings.

(** [parler.forms._get_model_form_field(model, name, formfield_callback,
    **kwargs)] builds a new form field from the model field.  The function
    lives in [parler/forms.py]; the development is parametric in it. *)
Variable _get_model_form_field :
  TranslationsModel → string → option AttrValue → Kwargs → FormField.

(** Element 1 of [zip] applied to the unpacked name pairs: the tuple of
    generated names.  Without any language [zip()] is the empty list and
    indexing it fails. *)
Definition zip_second (names : list (string * string)) : Result (list string) :=
  match names with
  | [] => Raise IndexError
  | _ :: _ => Ok (snd <$> names)
  end.

(** The three assignments of the storing loop, applied to the field that
    [_get_model_form_field] returned. *)
Definition localized (formfield : FormField) (code : string) : FormField :=
  {| required := bool_decide (code = _get_default_language cfg);
     label := label formfield +:+ " (" +:+ code +:+ ")";
     language_code := Some code;
     ff_kwargs := ff_kwargs formfield |}.

(** [for code, t_name in translated_fields_names: ... attrs[t_name] = formfield] *)
Definition store_translated_fields (tm : TranslationsModel) (f_name : string)
    (formfield_callback : option AttrValue) (kwargs : Kwargs)
    (names : list (string * string)) (a : gmap string AttrValue)
  : gmap string AttrValue :=
  fold_left
    (λ acc '(code, t_name),
       <[t_name := AField (localized
                    (_get_model_form_field tm f_name formfield_callback kwargs)
                    code)]> acc)
    names a.

(** The locals that [_handle_translation_model] computes once, before its
    loop. *)
Record Locals := {
  l_fields : option (list string);      (* None: every field *)
  l_exclude : list string;
  l_widgets : gmap string string;
  l_formfield_callback : option AttrValue
}.

Definition read_locals (st : State) : Locals :=
  let new_meta := form_new_meta st in
  let fields := default (opt_fields (form_meta st)) (o_fields new_meta) in
  let exclude := default (opt_exclude (form_meta st)) (o_exclude new_meta) in
  let widgets := default (opt_widgets (form_meta st)) (o_widgets new_meta) in
  {| l_fields := match fields with
                 | PyAll | PyNone => None
                 | PySeq names => Some names
                 end;
     l_exclude := default [] exclude;
     l_widgets := default ∅ widgets;
     l_formfield_callback := attrs st !! "formfield_callback" |}.

(** The body of [for f_name in translations_model.get_translated_fields()]. *)
Definition handle_field (bases : Bases) (tm : TranslationsModel)
    (form_base_fields : gmap string FormField) (translated_fields : list string)
    (loc : Locals) (f_name : string) (st : State) : Result State :=
  if bool_decide (f_name ∈ translated_fields) then
    (* translated_fields is a list of names: translated_fields[f_name]
       fails before _get_model_form_field is called *)
    Raise TypeError
  else if bool_decide (form_base_fields !! f_name = None)
          && bool_decide (l_fields loc = None ∨ f_name ∈ default [] (l_fields loc))
          && bool_decide (f_name ∉ l_exclude loc)
          && bool_decide (attrs st !! f_name = None) then
    let kwargs : Kwargs :=
      match l_widgets loc !! f_name with
      | Some w => {["widget" := w]}
      | None => ∅
      end in
    let kwargs : Kwargs :=
      match bases_attrs bases !! f_name with
      | Some (APlaceholder pk) => pk ∪ kwargs      (* kwargs.update(...) *)
      | _ => kwargs
      end in
    fld ← get_field tm f_name;
    if negb (editable fld) then Ok st
    else
      let translated_fields_names := _get_translated_fields_names cfg f_name in
      st1 ← match l_fields loc with
            | Some fields =>
                replacement ← zip_second translated_fields_names;
                new_fields ← _replace_field
                               (match fields with [] => [f_name] | _ => fields end)
                               f_name replacement;
                set_form_new_meta_fields (PySeq new_fields) st
            | None => Ok st
            end;
      Ok (set_attrs (store_translated_fields tm f_name (l_formfield_callback loc)
                       kwargs translated_fields_names (attrs st1)) st1)
  else Ok st.

Definition _handle_translation_model (bases : Bases) (tm : TranslationsModel)
    (form_base_fields : gmap string FormField) (translated_fields : list string)
    (st : State) : Result State :=
  let loc := read_locals st in
  for_each (handle_field bases tm form_base_fields translated_fields loc)
           (get_translated_fields tm) st.

(** [TranslatableModelFormMetaclass.__new__], up to the call of Django's
    [ModelFormMetaclass.__new__]: the result is the class dictionary (and
    the inherited options) that [create_cls()] receives. *)
Definition TranslatableModelFormMetaclass_new (bases : Bases)
    (a : gmap string AttrValue) : Result (gmap string AttrValue * option ModelFormOptions) :=
  match bases_meta bases with
  | None => Ok (a, None)
  | Some fm =>
      let form_base_fields := default ∅ (bases_base_fields bases) in
      let st := {| attrs := a; form_meta := fm |} in
      match o_model (form_new_meta st) with
      | None => Raise AttributeError
      | Some form_model =>
          let translated_fields :=
            fst <$> filter (λ kv, is_placeholder (snd kv) = true) (map_to_list a) in
          match form_model with
          | None => Ok (a, Some fm)
          | Some model =>
              st' ← for_each
                      (λ tm, _handle_translation_model bases tm form_base_fields
                               translated_fields)
                      (get_all_models model) st;
              Ok (attrs st', Some (form_meta st'))
          end
      end
  end.

(** [TranslatableAdmin.translated_for_model]: the [fields] of the generated
    admin class.  On [cls.fields = None] the test [f_name not in fields]
    fails. *)
Definition translated_for_model_fields (cls_fields : option (list string))
    (model : Model) : Result (option (list string)) :=
  for_each
    (λ tm,
       for_each
         (λ f_name (fields : option (list string)),
            match fields with
            | None => Raise TypeError
            | Some fs =>
                if bool_decide (f_name ∈ fs) then
                  let names := snd <$> _get_translated_fields_names cfg f_name in
                  fs' ← _replace_field fs f_name names;
                  Ok (Some fs')
                else Ok fields
            end)
         (get_translated_fields tm))
    (get_all_models model) cls_fields.

End FormConstruction.

(** ** The translation registry ([_parler_meta]) *)

Module Registry.

(** Modelled from the spec: [parler.models.ParlerMeta], which is not among
    the sources at hand.  One entry of the registry: the translation source
    ([translations_name] is the related name or the JSON field) that backs a
    set of translatable fields at one inheritance level. *)
Record ParlerMeta := {
  translations_name : string;
  meta_model_name : string;
  meta_translated_fields : list string      (* get_translated_fields() *)
}.

#[global] Instance ParlerMeta_eq_dec : EqDecision ParlerMeta.
Proof. solve_decision. Defined.

(** Modelled from the spec: [parler.models.ParlerOptions], which is not
    among the sources at hand.  The registry of a model records its entries
    per inheritance level, first level first, and the registry of the level
    it was chained to ([base]). *)
Inductive ParlerOptions : Type :=
| TopLevel (entries : list ParlerMeta)
| Chained (previous : ParlerOptions) (entries : list ParlerMeta).

(** Modelled from the spec: [_parler_meta.base], the registry of the level
    this one was chained to. *)
Definition base (o : ParlerOptions) : option ParlerOptions :=
  match o with
  | TopLevel _ => None
  | Chained b _ => Some b
  end.

(** Modelled from the spec: the entries of all inheritance levels, which
    iterating, indexing and [len] go through. *)
Definition extensions (o : ParlerOptions) : list ParlerMeta :=
  match o with
  | TopLevel e => e
  | Chained _ e => e
  end.

(** Modelled from the spec: the registry built when a model declares
    translations.  A model without a translatable ancestor starts a registry
    of its own; a derived model, and likewise a proxy model, reuses the
    entries of the base's registry and stacks its own entry after them. *)
Definition new_options (parent : option ParlerOptions) (own : ParlerMeta)
  : ParlerOptions :=
  match parent with
  | None => TopLevel [own]
  | Some b => Chained b (extensions b ++ [own])
  end.

(** Modelled from the spec: a second translation source declared on the same
    model is added to the same level instead of being chained. *)
Definition add_meta (o : ParlerOptions) (m : ParlerMeta) : ParlerOptions :=
  match o with
  | TopLevel e => TopLevel (e ++ [m])
  | Chained b e => Chained b (e ++ [m])
  end.

(** Modelled from the spec: [len(_parler_meta)], as the tests read it. *)
Definition len (o : ParlerOptions) : nat := length (extensions o).

(** Modelled from the spec: [_parler_meta[i]], as the tests read it. *)
Definition getitem (o : ParlerOptions) (i : nat) : Result ParlerMeta :=
  match extensions o !! i with
  | Some m => Ok m
  | None => Raise IndexError
  end.

(** Modelled from the spec: [root] is the entry of the first level. *)
Definition root (o : ParlerOptions) : Result ParlerMeta := getitem o 0.

(** Modelled from the spec: [root_translations_name] and [root_model] are the
    attributes of the root entry. *)
Definition root_translations_name (o : ParlerOptions) : Result string :=
  m ← root o; Ok (translations_name m).

Definition root_model (o : ParlerOptions) : Result string :=
  m ← root o; Ok (meta_model_name m).

(** Modelled from the spec: the registries along an inheritance chain whose
    levels declare the entries [own :: more], top-most level first; one
    registry per level, each chained to the one before. *)
Fixpoint chain_from (parent : ParlerOptions) (more : list ParlerMeta)
  : list ParlerOptions :=
  match more with
  | [] => []
  | m :: rest =>
      let o := new_options (Some parent) m in
      o :: chain_from o rest
  end.

Definition chain (own : ParlerMeta) (more : list ParlerMeta) : list ParlerOptions :=
  let top := new_options None own in
  top :: chain_from top more.

End Registry.
Import Registry.

(** ** Translatable instances *)

(** A translation object: the values of its fields. *)
Abbreviation Translation := (gmap string Value).

(** Modelled from the spec: the part of [parler.models.TranslatableModel]
    that the form code calls, which is not among the sources at hand.  An
    instance has a current language and holds, per translation source and
    language, at most one translation; its other attributes are ordinary. *)
Record Instance := {
  inst_parler_meta : list ParlerMeta;     (* iterating instance._parler_meta *)
  _current_language : string;
  _translations : gmap (string * string) Translation;
  inst_dict : gmap string Value
}.

(** Modelled from the spec: [instance.set_current_language(code)] of
    [parler.models], which makes [code] the current language. *)
Definition set_current_language (language_code : string) (inst : Instance) : Instance :=
  {| inst_parler_meta := inst_parler_meta inst;
     _current_language := language_code;
     _translations := _translations inst;
     inst_dict := inst_dict inst |}.

(** Modelled from the spec:
    [instance._get_translated_model(meta=meta, language_code=code)] of
    [parler.models]; a missing translation raises the does-not-exist
    condition. *)
Definition _get_translated_model (inst : Instance) (meta : ParlerMeta)
    (language_code : string) : Result Translation :=
  match _translations inst !! (translations_name meta, language_code) with
  | Some t => Ok t
  | None => Raise TranslationDoesNotExist
  end.

(** Modelled from the spec: [getattr(translation, field)] on a translation
    object; a field that was never assigned reads as [None]. *)
Definition translation_getattr (t : Translation) (field : string) : Value :=
  t !!! field.

(** Modelled from the spec: the registry entry whose translation source backs
    [field], the first one that lists it. *)
Definition field_meta (inst : Instance) (field : string) : option ParlerMeta :=
  find (λ m, bool_decide (field ∈ meta_translated_fields m)) (inst_parler_meta inst).

(** Modelled from the spec: [setattr(instance, field, value)] through the
    translated-field descriptor of [parler.fields]: a translated field is
    assigned in the translation of the current language, which is created
    when missing. *)
Definition setattr (inst : Instance) (field : string) (value : Value) : Instance :=
  match field_meta inst field with
  | Some m =>
      let key := (translations_name m, _current_language inst) in
      let t := default ∅ (_translations inst !! key) in
      {| inst_parler_meta := inst_parler_meta inst;
         _current_language := _current_language inst;
         _translations := <[key := <[field := value]> t]> (_translations inst);
         inst_dict := inst_dict inst |}
  | None =>
      {| inst_parler_meta := inst_parler_meta inst;
         _current_language := _current_language inst;
         _translations := _translations inst;
         inst_dict := <[field := value]> (inst_dict inst) |}
  end.

(** Modelled from the spec: the value of a translated field under a language,
    if the instance has one. *)
Definition translated_value (inst : Instance) (language_code field : string)
  : option Value :=
  m ← field_meta inst field;
  t ← _translations inst !! (translations_name m, language_code);
  t !! field.

(** ** singleformadmin.py: the form mixin *)

Section FormMixin.

Variable cfg : Settings.

(** [dict(pairs)[key]]: the last pair with that key, [KeyError] without. *)
Definition dict_getitem (pairs : list (string * string)) (key : string)
  : Result string :=
  match (list_to_map (reverse pairs) : gmap string string) !! key with
  | Some v => Ok v
  | None => Raise KeyError
  end.

(** [initial.setdefault(key, value)] *)
Definition setdefault (key : string) (value : Value) (d : gmap string Value)
  : gmap string Value :=
  match d !! key with
  | Some _ => d
  | None => <[key := value]> d
  end.

(** [TranslatableModelFormMixin.__init__], after [ModelForm.__init__] has
    set [self.initial]: the result is the final [self.initial]. *)
Definition TranslatableModelFormMixin_init (instance : option Instance)
    (initial : gmap string Value) : Result (gmap string Value) :=
  match instance with
  | None => Ok initial
  | Some inst =>
      for_each
        (λ meta,
           for_each
             (λ field,
                for_each
                  (λ '(code, code_field) (ini : gmap string Value),
                     match _get_translated_model inst meta code with
                     | Raise TranslationDoesNotExist => Ok ini      (* continue *)
                     | Raise e => Raise e
                     | Ok translation =>
                         Ok (setdefault code_field
                               (translation_getattr translation field) ini)
                     end)
                  (_get_translated_fields_names cfg field))
             (meta_translated_fields meta))
        (inst_parler_meta inst) initial
  end.

(** [_get_all_translated_fields_names] *)
Definition _get_all_translated_fields_names (inst : Instance) : list string :=
  meta ← inst_parler_meta inst; meta_translated_fields meta.

(** [save_translated_fields]; [active] is what [get_language()] returns. *)
Definition save_translated_fields (active : string)
    (cleaned_data : gmap string Value) (instance : Instance) : Result Instance :=
  inst ← for_each
           (λ code inst,
              let inst := set_current_language code inst in
              for_each
                (λ field inst,
                   code_field ← dict_getitem (_get_translated_fields_names cfg field) code;
                   match cleaned_data !! code_field with
                   | None => Ok inst                                  (* continue *)
                   | Some value => Ok (setattr inst field value)
                   end)
                (_get_all_translated_fields_names inst) inst)
           (_get_available_language_codes cfg) instance;
  Ok (set_current_language active inst).

End FormMixin.

(** ** example/article/views.py *)

Module ArticleViews.

(** A row of the joined translation table. *)
Record TranslationRow := {
  row_language_code : string;
  row_title : string
}.

(** An [Article] with both translation stores: the rows of the translation
    table and the JSON document keyed by language. *)
Record Article := {
  pk : Z;
  published : bool;
  translations : list TranslationRow;
  translations_data : gmap string Translation
}.

(** The keyword lookups that the views pass to [QuerySet.filter]. *)
Inductive Lookup : Type :=
| published_exact (b : bool)                   (* published=b *)
| translations_data__has (language : string)    (* JSON document has the key *)
| translations__language_code (language : string).  (* join on the table *)

(** A queryset is the list of rows its query returns.  A lookup across the
    translation table joins it: one result row per matching translation. *)
Definition filter_qs (l : Lookup) (qs : list Article) : list Article :=
  match l with
  | published_exact b =>
      filter (λ a, published a = b) qs
  | translations_data__has language =>
      filter (λ a, is_Some (translations_data a !! language)) qs
  | translations__language_code language =>
      a ← qs;
      _ ← filter (λ r, row_language_code r = language) (translations a);
      [a]
  end.

Definition JSON_BACKEND (cfg : Settings) : bool :=
  bool_decide (PARLER_BACKEND cfg = "json").

(** [ListView.get_queryset] with [model = Article]: every article. *)
Definition ListView_get_queryset (db : list Article) : list Article := db.

Definition BaseArticleMixin_get_queryset (db : list Article) : list Article :=
  filter_qs (published_exact true) (ListView_get_queryset db).

(** The lookup that [ArticleListView.get_queryset] chooses. *)
Definition language_lookup (cfg : Settings) (language : string) : Lookup :=
  if JSON_BACKEND cfg then translations_data__has language
  else translations__language_code language.

(** [ArticleListView.get_queryset]; [active] is what [get_language()]
    returns. *)
Definition ArticleListView_get_queryset (cfg : Settings) (active : string)
    (db : list Article) : list Article :=
  let language := active in
  if JSON_BACKEND cfg then
    filter_qs (translations_data__has language) (BaseArticleMixin_get_queryset db)
  else
    filter_qs (translations__language_code language) (BaseArticleMixin_get_queryset db).

(** An article has a translation in a language, in the store that the
    backend uses. *)
Definition has_translation (cfg : Settings) (a : Article) (language : string) : Prop :=
  if JSON_BACKEND cfg then is_Some (translations_data a !! language)
  else ∃ r, r ∈ translations a ∧ row_language_code r = language.

End ArticleViews.

(** ** Querying a proxy model *)

Module ProxyQuery.

(** Modelled from the spec: a proxy model of [parler/tests/testapp], which
    is not among the sources at hand.  A proxy reads the table of its base;
    [overlapping] tells that its translation table overlaps the base's. *)
Record ProxyModel := {
  base_table : list (Z * string);       (* rows: id, original_field *)
  overlapping : bool
}.

(** Modelled from the spec: counting is answered by the table alone. *)
Definition count (m : ProxyModel) : Result nat := Ok (length (base_table m)).

(** Modelled from the spec: fetching row [i] builds an instance of the
    proxy, which is a runtime error when the translation tables overlap. *)
Definition fetch (m : ProxyModel) (i : nat) : Result (Z * string) :=
  match base_table m !! i with
  | None => Raise IndexError
  | Some row => if overlapping m then Raise RuntimeError else Ok row
  end.

(** Modelled from the spec: [objects.create(...)] on the base model adds a
    row to the table. *)
Definition create (row : Z * string) (m : ProxyModel) : ProxyModel :=
  {| base_table := base_table m ++ [row]; overlapping := overlapping m |}.

End ProxyQuery.

(** * Vocabulary of the properties *)

(** ** Saving *)

Section SavingVocabulary.

Variable cleaned_data : gmap string Value.

(** What a run of assignments may do to a translated value: leave it, or
    set it to the cleaned value under its per-language key. *)
Definition kept_or_cleaned (old new : Instance) : Prop :=
  inst_parler_meta new = inst_parler_meta old ∧
  ∀ c f,
    translated_value new c f = translated_value old c f
    ∨ ∃ v, cleaned_data !! format_name f c = Some v ∧ translated_value new c f = Some v.

End SavingVocabulary.

(** ** Loading the initial values *)

(** Keys that are present keep their value. *)
Definition keeps_present (d d' : gmap string Value) : Prop :=
  ∀ k v, d !! k = Some v → d' !! k = Some v.


Section LoadingVocabulary.

Variable cfg : Settings.
Variable inst : Instance.

(** The three loop bodies of [__init__], innermost first. *)
Definition load_code (meta : ParlerMeta) (field : string)
  : string * string → gmap string Value → Result (gmap string Value) :=
  λ '(code, code_field) ini,
  match _get_translated_model inst meta code with
  | Raise TranslationDoesNotExist => Ok ini
  | Raise e => Raise e
  | Ok translation =>
      Ok (setdefault code_field (translation_getattr translation field) ini)
  end.

Definition load_field (meta : ParlerMeta) (field : string) :=
  for_each (load_code meta field) (_get_translated_fields_names cfg field).

Definition load_meta (meta : ParlerMeta) :=
  for_each (load_field meta) (meta_translated_fields meta).

(** The value that the loop may store under a key: the field of an existing
    translation, for a registry entry, field and language that give the key. *)
Definition loadable (k : string) (v : Value) : Prop :=
  ∃ meta field c t,
    meta ∈ inst_parler_meta inst ∧ field ∈ meta_translated_fields meta
    ∧ c ∈ _get_available_language_codes cfg
    ∧ _get_translated_model inst meta c = Ok t
    ∧ k = format_name field c ∧ v = translation_getattr t field.

(** How the loop moves the initial data: present keys keep their value and a
    key changes only by receiving a loadable value. *)
Definition loads (d d' : gmap string Value) : Prop :=
  keeps_present d d'
  ∧ ∀ k, d' !! k = d !! k ∨ (∃ v, d' !! k = Some v ∧ loadable k v).

End LoadingVocabulary.

(** The generated key of a field and language is the key of no other
    translation source, field or language of the instance. *)
Definition key_unambiguous (cfg : Settings) (inst : Instance)
    (meta : ParlerMeta) (field c : string) : Prop :=
  ∀ meta' field' c',
    meta' ∈ inst_parler_meta inst → field' ∈ meta_translated_fields meta' →
    c' ∈ _get_available_language_codes cfg →
    format_name field' c' = format_name field c →
    translations_name meta' = translations_name meta ∧ field' = field ∧ c' = c.

(** ** Class construction *)

Section ClassVocabulary.

Variable cfg : Settings.
Variable _get_model_form_field :
  TranslationsModel → string → option AttrValue → Kwargs → FormField.

(** An entry that the storing loop writes: the field built for a translated
    field of one of the translations models [tms], localized for a configured
    language and bound to the generated name. *)
Definition generated (tms : list TranslationsModel) (k : string) (v : AttrValue) : Prop :=
  ∃ tm f_name c callback kwargs,
    tm ∈ tms ∧ f_name ∈ get_translated_fields tm
    ∧ c ∈ _get_available_language_codes cfg
    ∧ k = format_name f_name c
    ∧ v = AField (localized cfg (_get_model_form_field tm f_name callback kwargs) c).

(** How class construction changes the dictionary: an entry is untouched, or
    it is the [Meta] class with an attribute reassigned, or it is generated. *)
Definition changes (tms : list TranslationsModel) (a a' : gmap string AttrValue) : Prop :=
  ∀ k,
    a' !! k = a !! k
    ∨ (k = "Meta" ∧ ∃ m m', a !! k = Some (AMeta m) ∧ a' !! k = Some (AMeta m'))
    ∨ (∃ v, a' !! k = Some v ∧ generated tms k v).

End ClassVocabulary.

(** ** A worked configuration

    The settings of [startests.py] (site 4 with Dutch, German and English)
    and an article that so far is translated in English only. *)

Definition example_settings : Settings :=
  {| SITE_ID := Some 4%Z;
     PARLER_LANGUAGES :=
       {[ 4%Z := [ {| ld_code := "nl"; ld_fallbacks := [] |};
                   {| ld_code := "de"; ld_fallbacks := [] |};
                   {| ld_code := "en"; ld_fallbacks := [] |} ] ]};
     PARLER_DEFAULT_LANGUAGE_CODE := "en";
     PARLER_BACKEND := "json" |}.

Definition example_meta : ParlerMeta :=
  {| translations_name := "translations";
     meta_model_name := "ArticleTranslation";
     meta_translated_fields := ["title"; "slug"] |}.

Definition example_instance : Instance :=
  {| inst_parler_meta := [example_meta];
     _current_language := "en";
     _translations :=
       {[ ("translations", "en") :=
            ({[ "title" := VStr "Hello"; "slug" := VStr "hello" ]} : Translation) ]};
     inst_dict := ∅ |}.

Definition example_cleaned_data : gmap string Value :=
  {[ "title_nl" := VStr "Hallo"; "title_en" := VStr "Hello again" ]}.

(** ** The models of the construction tests *)

Definition Level1_meta : ParlerMeta :=
  {| translations_name := "l1_translations"; meta_model_name := "Level1Translation";
     meta_translated_fields := ["l1_title"] |}.

Definition Level2_meta : ParlerMeta :=
  {| translations_name := "l2_translations"; meta_model_name := "Level2Translation";
     meta_translated_fields := ["l2_title"] |}.

Definition Level1_parler_meta : ParlerOptions := new_options None Level1_meta.
Definition Level2_parler_meta : ParlerOptions :=
  new_options (Some Level1_parler_meta) Level2_meta.

Definition ProxyBase_meta : ParlerMeta :=
  {| translations_name := "base_translations"; meta_model_name := "ProxyBaseTranslation";
     meta_translated_fields := ["base_title"] |}.

Definition ProxyModel_meta : ParlerMeta :=
  {| translations_name := "proxy_translations"; meta_model_name := "ProxyModelTranslation";
     meta_translated_fields := ["proxy_title"] |}.

Definition ProxyBase_parler_meta : ParlerOptions := new_options None ProxyBase_meta.

(** ** A worked form class

    [class ArticleForm(TranslatableModelForm)] with
    [Meta.model = Article] and [Meta.fields = ('title', 'slug', 'published')],
    where [title] and [slug] are translated. *)

Definition example_translations_model : TranslationsModel :=
  {| tm_name := "ArticleTranslation";
     tm_fields := [ {| mf_name := "title"; editable := true |};
                    {| mf_name := "slug"; editable := true |} ] |}.

Definition example_model : Model :=
  {| model_name := "Article"; get_all_models := [example_translations_model] |}.

(** The bases: [TranslatableModelForm], whose [_meta] names no model. *)
Definition example_bases : Bases :=
  {| bases_meta := Some {| opt_model := None; opt_fields := PyNone;
                           opt_exclude := None; opt_widgets := None |};
     bases_base_fields := Some ∅;
     bases_attrs := ∅ |}.

Definition example_Meta : MetaObj :=
  {| o_model := Some (Some example_model);
     o_fields := Some (PySeq ["title"; "slug"; "published"]);
     o_exclude := None;
     o_widgets := None |}.

Definition example_attrs : gmap string AttrValue :=
  {[ "Meta" := AMeta example_Meta ]}.

(** The same class with [title = TranslatedField(label='Title')] declared. *)
Definition example_attrs_placeholder : gmap string AttrValue :=
  <["title" := APlaceholder {[ "label" := "Title" ]}]> example_attrs.

Definition example_get_model_form_field (tm : TranslationsModel) (name : string)
    (formfield_callback : option AttrValue) (kwargs : Kwargs) : FormField :=
  {| required := true; label := name; language_code := None; ff_kwargs := kwargs |}.

(** [Meta.fields] of a constructed class. *)
Definition Meta_fields (r : Result (gmap string AttrValue * option ModelFormOptions))
  : option PyFields :=
  match r with
  | Ok (a, _) =>
      match a !! "Meta" with
      | Some (AMeta m) => o_fields m
      | _ => None
      end
  | Raise _ => None
  end.

Definition example_class :=
  TranslatableModelFormMetaclass_new example_settings example_get_model_form_field
    example_bases example_attrs.

(** ** A configuration in which two pairs generate one key

    The languages of the site are [gb] and [en_gb], the translated fields
    [title] and [title_en]: the pairs ([title], [en_gb]) and ([title_en],
    [gb]) both generate [title_en_gb].  The instance is translated in [gb]
    only. *)




(** * Vocabulary of the further properties *)

(** ** The admin's field list *)

(** The translated field names of all translations models of a model, in the
    order the loops of [translated_for_model] visit them. *)
Definition translated_names (model : Model) : list string :=
  tm ← get_all_models model; get_translated_fields tm.

(** An entry of a field list with the translated names [replaced] replaced: a
    translated name stands for its per-language names. *)
Definition expand_field (cfg : Settings) (replaced : list string) (x : string)
  : list string :=
  if decide (x ∈ replaced) then format_name x <$> _get_available_language_codes cfg
  else [x].

(** The body of the inner loop of [translated_for_model]. *)
Definition replace_listed (cfg : Settings) (f_name : string) (fields : option (list string))
  : Result (option (list string)) :=
  match fields with
  | None => Raise TypeError
  | Some fs =>
      if bool_decide (f_name ∈ fs) then
        let names := snd <$> _get_translated_fields_names cfg f_name in
        fs' ← _replace_field fs f_name names;
        Ok (Some fs')
      else Ok fields
  end.


(** ** Class construction: where the assignment goes *)

(** What class construction may do to the options: with a [Meta] class in
    the dictionary only its [fields] may be reassigned and the inherited
    options object is left alone; without one, only the [fields] of the
    inherited options object may be. *)
Definition only_fields_reassigned (st st' : State) : Prop :=
  match attrs st !! "Meta" with
  | Some (AMeta m) =>
      form_meta st' = form_meta st
      ∧ ∃ m', attrs st' !! "Meta" = Some (AMeta m')
              ∧ o_model m' = o_model m ∧ o_exclude m' = o_exclude m
              ∧ o_widgets m' = o_widgets m
  | Some _ => True
  | None =>
      attrs st' !! "Meta" = None
      ∧ opt_model (form_meta st') = opt_model (form_meta st)
      ∧ opt_exclude (form_meta st') = opt_exclude (form_meta st)
      ∧ opt_widgets (form_meta st') = opt_widgets (form_meta st)
  end.

(** A name that class construction may bind: the per-language name of a
    translated field of one of the translations models of the form's model,
    for a language configured for the site. *)
Definition generated_name (cfg : Settings) (bases : Bases)
    (a : gmap string AttrValue) (k : string) : Prop :=
  ∃ fm model tm f_name c,
    bases_meta bases = Some fm
    ∧ o_model (form_new_meta {| attrs := a; form_meta := fm |}) = Some (Some model)
    ∧ tm ∈ get_all_models model
    ∧ f_name ∈ get_translated_fields tm
    ∧ c ∈ _get_available_language_codes cfg
    ∧ k = format_name f_name c.

(** A translated field passes the checks of the loop of
    [_handle_translation_model]: not in the base fields, listed when there is
    a list, not excluded, not an attribute of the class, and editable. *)
Definition passes_checks (form_base_fields : gmap string FormField)
    (fields : option (list string)) (exclude : list string)
    (a : gmap string AttrValue) (tm : TranslationsModel) (f_name : string) : Prop :=
  form_base_fields !! f_name = None
  ∧ (fields = None ∨ f_name ∈ default [] fields)
  ∧ (f_name ∉ exclude)
  ∧ a !! f_name = None
  ∧ ∃ fld, get_field tm f_name = Ok fld ∧ editable fld = true.

(** A form class that inherits from the worked class and declares no [Meta]
    of its own: the bases provide the options and the six generated base
    fields. *)
Definition example_subclass_bases : Bases :=
  {| bases_meta :=
       Some {| opt_model := Some example_model;
               opt_fields := PySeq ["title"; "slug_nl"; "slug_de"; "slug_en"; "published"];
               opt_exclude := None; opt_widgets := None |};
     bases_base_fields :=
       Some (list_to_map
               ((λ k, (k, example_get_model_form_field example_translations_model k
                            None ∅))
                <$> ["title_nl"; "title_de"; "title_en"; "slug_nl"; "slug_de"; "slug_en"]));
     bases_attrs := ∅ |}.

(** Settings without any language for the site. *)
Definition example_settings_no_site : Settings :=
  {| SITE_ID := None;
     PARLER_LANGUAGES := PARLER_LANGUAGES example_settings;
     PARLER_DEFAULT_LANGUAGE_CODE := "en";
     PARLER_BACKEND := "json" |}.

(** The worked class as the admin builds it the second time: [Meta.fields]
    already lists per-language names only. *)
Definition example_attrs_listed : gmap string AttrValue :=
  {[ "Meta" := AMeta {| o_model := Some (Some example_model);
                        o_fields := Some (PySeq ["title_nl"; "title_en"; "published"]);
                        o_exclude := None;
                        o_widgets := None |} ]}.

(** The ["Meta"] entry of a dictionary that [__new__] could read a model
    from: a class, or absent. *)
Definition Meta_is_class (st : State) : Prop :=
  attrs st !! "Meta" = None ∨ ∃ m, attrs st !! "Meta" = Some (AMeta m).


(** ** Saving: what stays *)

(** What saving leaves alone: the registry, the ordinary attributes, the
    translations of languages that are not configured, and the existence of
    every translation. *)
Definition saved_around (cfg : Settings) (old new : Instance) : Prop :=
  inst_parler_meta new = inst_parler_meta old
  ∧ inst_dict new = inst_dict old
  ∧ (∀ name c, c ∉ _get_available_language_codes cfg →
       _translations new !! (name, c) = _translations old !! (name, c))
  ∧ (∀ key, is_Some (_translations old !! key) → is_Some (_translations new !! key)).

(** Two instances that differ in their current language at most. *)
Definition same_data (i j : Instance) : Prop :=
  inst_parler_meta i = inst_parler_meta j
  ∧ _translations i = _translations j
  ∧ inst_dict i = inst_dict j.

(** ** Class construction: the generated field, exactly *)

(** The keyword arguments of the loop for one field: the widget declared in
    [Meta.widgets], updated with the kwargs of a placeholder that a base
    class declares under the field's name. *)
Definition field_kwargs (bases : Bases) (widgets : gmap string string)
    (f_name : string) : Kwargs :=
  let kwargs : Kwargs :=
    match widgets !! f_name with
    | Some w => {["widget" := w]}
    | None => ∅
    end in
  match bases_attrs bases !! f_name with
  | Some (APlaceholder pk) => pk ∪ kwargs
  | _ => kwargs
  end.

Section ExactVocabulary.

Variable cfg : Settings.
Variable _get_model_form_field :
  TranslationsModel → string → option AttrValue → Kwargs → FormField.

(** The form field that one run over a translations model stores for a field
    and a language. *)
Definition stored_field (bases : Bases) (loc : Locals) (tm : TranslationsModel)
    (f_name c : string) : AttrValue :=
  AField (localized cfg
            (_get_model_form_field tm f_name (l_formfield_callback loc)
               (field_kwargs bases (l_widgets loc) f_name))
            c).

(** [changes], with the value of each generated entry spelled out. *)
Definition stores (bases : Bases) (loc : Locals) (tm : TranslationsModel)
    (a a' : gmap string AttrValue) : Prop :=
  ∀ k,
    a' !! k = a !! k
    ∨ (k = "Meta" ∧ ∃ m m', a !! k = Some (AMeta m) ∧ a' !! k = Some (AMeta m'))
    ∨ (∃ g c, g ∈ get_translated_fields tm
              ∧ c ∈ _get_available_language_codes cfg
              ∧ k = format_name g c
              ∧ a' !! k = Some (stored_field bases loc tm g c)).

End ExactVocabulary.

(** A base class that declares [title = TranslatedField(label='Title')]. *)
Definition example_bases_placeholder : Bases :=
  {| bases_meta := bases_meta example_bases;
     bases_base_fields := Some ∅;
     bases_attrs := {[ "title" := APlaceholder {[ "label" := "Title" ]} ]} |}.

(** The worked class with a widget declared for [title] and a
    [formfield_callback]. *)
Definition example_attrs_widgets : gmap string AttrValue :=
  {[ "Meta" := AMeta {| o_model := Some (Some example_model);
                        o_fields := Some (PySeq ["title"; "slug"; "published"]);
                        o_exclude := None;
                        o_widgets := Some (Some {[ "title" := "Textarea" ]}) |};
     "formfield_callback" := AOther "formfield_for_dbfield" ]}.


(** * Properties *)

(** ** Loops *)

Section ForEach.

Context {A S : Type}.
Implicit Types (body : A → S → Result S) (xs : list A) (s : S).

Lemma for_each_app body xs ys s :
  for_each body (xs ++ ys) s =
  match for_each body xs s with
  | Ok s' => for_each body ys s'
  | Raise e => Raise e
  end.
Proof.
  revert s. induction xs as [|x xs IH]; intros s; simpl; [done|].
  destruct (body x s); [apply IH | done].
Qed.

(** An invariant that every successful iteration keeps holds after a
    successful loop. *)
Lemma for_each_invariant (P : S → Prop) body xs s s' :
  P s →
  (∀ x t t', x ∈ xs → P t → body x t = Ok t' → P t') →
  for_each body xs s = Ok s' → P s'.
Proof.
  revert s. induction xs as [|x xs IH]; intros s Hs Hstep; simpl.
  - intros [= <-]. exact Hs.
  - destruct (body x s) as [t|e] eqn:Hb; [|done].
    apply IH.
    + eapply Hstep; [left | exact Hs | exact Hb].
    + intros y u u' Hy. apply Hstep. by right.
Qed.

(** When every iteration returns and extends an invariant that is indexed
    by the elements done so far, the loop returns and the invariant holds
    for the whole list. *)
Lemma for_each_progress (P : list A → S → Prop) body xs :
  ∀ done s,
    P done s →
    (∀ seen x t, x ∈ xs → P seen t → ∃ t', body x t = Ok t' ∧ P (seen ++ [x]) t') →
    ∃ s', for_each body xs s = Ok s' ∧ P (done ++ xs) s'.
Proof.
  induction xs as [|x xs IH]; intros done s Hs Hstep; simpl.
  - exists s. by rewrite app_nil_r.
  - destruct (Hstep done x s) as (t & Hb & Ht); [left | done |].
    rewrite Hb.
    destruct (IH (done ++ [x]) t Ht) as (s' & Hs' & HP).
    + intros seen y u Hy. apply Hstep. by right.
    + exists s'. split; [done|]. by rewrite <- app_assoc in HP.
Qed.

End ForEach.

(** ** Saving the per-language values *)

Section SaveTranslatedFields.

Variable cfg : Settings.
Variable cleaned_data : gmap string Value.

Lemma dict_getitem_names field c :
  c ∈ _get_available_language_codes cfg →
  dict_getitem (_get_translated_fields_names cfg field) c = Ok (format_name field c).
Proof.
  intros Hc. unfold dict_getitem.
  destruct (_ !! c) as [v|] eqn:Hl.
  - apply elem_of_list_to_map_2 in Hl. rewrite elem_of_reverse in Hl.
    unfold _get_translated_fields_names in Hl.
    apply list_elem_of_fmap in Hl as (c' & [= -> ->] & _). done.
  - apply not_elem_of_list_to_map in Hl. exfalso. apply Hl.
    rewrite fmap_reverse, elem_of_reverse.
    unfold _get_translated_fields_names. rewrite <- list_fmap_compose.
    apply list_elem_of_fmap. exists c. done.
Qed.

Lemma field_meta_set_current_language inst c field :
  field_meta (set_current_language c inst) field = field_meta inst field.
Proof. done. Qed.

Lemma translated_value_set_current_language inst c c' field :
  translated_value (set_current_language c inst) c' field = translated_value inst c' field.
Proof. done. Qed.

Lemma setattr_parler_meta inst field v :
  inst_parler_meta (setattr inst field v) = inst_parler_meta inst.
Proof. unfold setattr. by destruct (field_meta inst field). Qed.

Lemma setattr_current_language inst field v :
  _current_language (setattr inst field v) = _current_language inst.
Proof. unfold setattr. by destruct (field_meta inst field). Qed.

Lemma field_meta_setattr inst field v f :
  field_meta (setattr inst field v) f = field_meta inst f.
Proof. unfold field_meta. by rewrite setattr_parler_meta. Qed.

Lemma field_meta_Some inst field :
  field ∈ _get_all_translated_fields_names inst → is_Some (field_meta inst field).
Proof.
  unfold _get_all_translated_fields_names, field_meta. intros Hin.
  apply list_elem_of_bind in Hin as (m & Hf & Hm).
  induction (inst_parler_meta inst) as [|m' ms IH]; [by apply elem_of_nil in Hm|].
  simpl. case_bool_decide; [by eexists|].
  apply IH. apply elem_of_cons in Hm as [->|Hm]; done.
Qed.

(** Reading a translated field after an assignment. *)
Lemma translated_value_setattr inst field v c f :
  is_Some (field_meta inst field) →
  translated_value (setattr inst field v) c f =
  if decide (f = field ∧ c = _current_language inst) then Some v
  else translated_value inst c f.
Proof.
  intros [m Hm]. unfold translated_value.
  rewrite field_meta_setattr. unfold setattr. rewrite Hm. simpl.
  case_decide as Hd.
  - destruct Hd as [-> ->]. rewrite Hm. simpl.
    rewrite lookup_insert_eq. simpl. by rewrite lookup_insert_eq.
  - destruct (field_meta inst f) as [m'|] eqn:Hm'; simpl; [|done].
    destruct (decide ((translations_name m, _current_language inst)
                      = (translations_name m', c))) as [Heq|Hne].
    + rewrite <- Heq, lookup_insert_eq. simpl.
      injection Heq as Hn Hc.
      rewrite lookup_insert_ne by naive_solver.
      destruct (_translations inst !! _); done.
    + by rewrite lookup_insert_ne.
Qed.

Lemma kept_or_cleaned_refl inst : kept_or_cleaned cleaned_data inst inst.
Proof. split; [done|]. intros; by left. Qed.

Lemma kept_or_cleaned_trans a b c :
  kept_or_cleaned cleaned_data a b → kept_or_cleaned cleaned_data b c →
  kept_or_cleaned cleaned_data a c.
Proof.
  intros [Hm1 H1] [Hm2 H2]. split; [congruence|].
  intros l f. destruct (H2 l f) as [Heq|?]; [|by right].
  rewrite Heq. apply H1.
Qed.

Lemma kept_or_cleaned_set_current_language inst c :
  kept_or_cleaned cleaned_data inst (set_current_language c inst).
Proof. split; [done|]. intros; by left. Qed.

Lemma kept_or_cleaned_setattr inst field v :
  field ∈ _get_all_translated_fields_names inst →
  cleaned_data !! format_name field (_current_language inst) = Some v →
  kept_or_cleaned cleaned_data inst (setattr inst field v).
Proof.
  intros Hin Hv. split; [apply setattr_parler_meta|].
  intros c f. rewrite translated_value_setattr by by apply field_meta_Some.
  case_decide as Hd; [|by left].
  destruct Hd as [-> ->]. right. by exists v.
Qed.

(** The inner loop of [save_translated_fields], for one language. *)
Lemma save_fields_of_language inst c :
  c ∈ _get_available_language_codes cfg →
  _current_language inst = c →
  ∃ inst',
    for_each
      (λ field inst,
         code_field ← dict_getitem (_get_translated_fields_names cfg field) c;
         match cleaned_data !! code_field with
         | None => Ok inst
         | Some value => Ok (setattr inst field value)
         end)
      (_get_all_translated_fields_names inst) inst = Ok inst'
    ∧ kept_or_cleaned cleaned_data inst inst'
    ∧ ∀ field v,
        field ∈ _get_all_translated_fields_names inst →
        cleaned_data !! format_name field c = Some v →
        translated_value inst' c field = Some v.
Proof.
  intros Hc Hcur.
  pose (P := λ (seen : list string) (i : Instance),
    _current_language i = c ∧ kept_or_cleaned cleaned_data inst i ∧
    ∀ field v, field ∈ seen → cleaned_data !! format_name field c = Some v →
               translated_value i c field = Some v).
  destruct (for_each_progress P
    (λ field inst,
         code_field ← dict_getitem (_get_translated_fields_names cfg field) c;
         match cleaned_data !! code_field with
         | None => Ok inst
         | Some value => Ok (setattr inst field value)
         end)
    (_get_all_translated_fields_names inst) [] inst) as (inst' & Hrun & HP).
  - split_and!; [done | apply kept_or_cleaned_refl |]. intros ?? Hin. by apply elem_of_nil in Hin.
  - intros seen field t Hin (Hcur' & Hk & Hseen).
    rewrite dict_getitem_names by done. simpl.
    assert (Hfields : _get_all_translated_fields_names t = _get_all_translated_fields_names inst).
    { unfold _get_all_translated_fields_names. by rewrite (proj1 Hk). }
    destruct (cleaned_data !! format_name field c) as [v|] eqn:Hv.
    + eexists. split; [done|].
      assert (Hstep : kept_or_cleaned cleaned_data t (setattr t field v)).
      { apply kept_or_cleaned_setattr; [by rewrite Hfields | by rewrite Hcur']. }
      split_and!.
      * by rewrite setattr_current_language.
      * by eapply kept_or_cleaned_trans.
      * intros f w Hf Hw.
        rewrite translated_value_setattr
          by (apply field_meta_Some; by rewrite Hfields).
        case_decide as Hd.
        -- destruct Hd as [-> _]. congruence.
        -- apply Hseen; [|done].
           apply elem_of_app in Hf as [Hf|Hf]; [done|].
           apply list_elem_of_singleton in Hf as ->. naive_solver.
    + exists t. split; [done|]. split_and!; [done..|].
      intros f w Hf Hw. apply elem_of_app in Hf as [Hf|Hf]; [by apply Hseen|].
      apply list_elem_of_singleton in Hf as ->. congruence.
  - exists inst'. destruct HP as (_ & Hk & Hall). split_and!; [done..|].
    intros field v Hin. by apply Hall.
Qed.

(** The loop over the configured languages. *)
Lemma save_languages inst :
  ∃ inst',
    for_each
      (λ code inst,
         let inst := set_current_language code inst in
         for_each
           (λ field inst,
              code_field ← dict_getitem (_get_translated_fields_names cfg field) code;
              match cleaned_data !! code_field with
              | None => Ok inst
              | Some value => Ok (setattr inst field value)
              end)
           (_get_all_translated_fields_names inst) inst)
      (_get_available_language_codes cfg) inst = Ok inst'
    ∧ kept_or_cleaned cleaned_data inst inst'
    ∧ ∀ c field v,
        c ∈ _get_available_language_codes cfg →
        field ∈ _get_all_translated_fields_names inst →
        cleaned_data !! format_name field c = Some v →
        translated_value inst' c field = Some v.
Proof.
  pose (P := λ (seen : list string) (i : Instance),
    kept_or_cleaned cleaned_data inst i ∧
    ∀ c field v, c ∈ seen → field ∈ _get_all_translated_fields_names inst →
                 cleaned_data !! format_name field c = Some v →
                 translated_value i c field = Some v).
  edestruct (for_each_progress P) as (inst' & Hrun & Hk & Hall);
    [| | exists inst'; split; [exact Hrun|]].
  - split; [apply kept_or_cleaned_refl|]. intros ??? Hin. by apply elem_of_nil in Hin.
  - intros seen c t Hc [Hk Hseen]. simpl.
    destruct (save_fields_of_language (set_current_language c t) c Hc eq_refl)
      as (t' & -> & Hk' & Hnew).
    exists t'. split; [done|].
    assert (Hkt : kept_or_cleaned cleaned_data t t').
    { eapply kept_or_cleaned_trans; [apply kept_or_cleaned_set_current_language | exact Hk']. }
    split; [by eapply kept_or_cleaned_trans|].
    intros c0 field v Hc0 Hfield Hv.
    apply elem_of_app in Hc0 as [Hc0|Hc0].
    + destruct (proj2 Hkt c0 field) as [->|(w & Hw & ->)]; [by eapply Hseen | congruence].
    + apply list_elem_of_singleton in Hc0 as ->. apply Hnew; [|done].
      unfold _get_all_translated_fields_names in *. simpl. by rewrite (proj1 Hk).
  - split; [done|]. intros c field v Hc. by apply Hall.
Qed.

(** [save_translated_fields] returns, and what the returned instance holds. *)
Lemma save_translated_fields_returns active inst :
  ∃ inst',
    save_translated_fields cfg active cleaned_data inst = Ok inst'
    ∧ _current_language inst' = active
    ∧ kept_or_cleaned cleaned_data inst inst'
    ∧ ∀ c field v,
        c ∈ _get_available_language_codes cfg →
        field ∈ _get_all_translated_fields_names inst →
        cleaned_data !! format_name field c = Some v →
        translated_value inst' c field = Some v.
Proof.
  destruct (save_languages inst) as (i & Hrun & Hk & Hall).
  exists (set_current_language active i). unfold save_translated_fields.
  cbv zeta in Hrun. rewrite Hrun. simpl. split_and!; [done..| |].
  - eapply kept_or_cleaned_trans; [exact Hk | apply kept_or_cleaned_set_current_language].
  - intros c field v ???. rewrite translated_value_set_current_language. by eapply Hall.
Qed.

End SaveTranslatedFields.

(** C4.  [save_translated_fields] returns, and in the instance it leaves, for
    every configured language code and every translated field: when the key
    ['{field}_{code}'] is in [cleaned_data], the field's value under that
    language is the cleaned value; when the key is not in [cleaned_data], the
    field's value under that language is what it was before. *)
Theorem save_translated_fields_restores cfg active cleaned_data inst c field :
  c ∈ _get_available_language_codes cfg →
  field ∈ _get_all_translated_fields_names inst →
  ∃ inst',
    save_translated_fields cfg active cleaned_data inst = Ok inst'
    ∧ match cleaned_data !! format_name field c with
      | Some v => translated_value inst' c field = Some v
      | None => translated_value inst' c field = translated_value inst c field
      end.
Proof.
  intros Hc Hfield.
  destruct (save_translated_fields_returns cfg cleaned_data active inst)
    as (inst' & Hrun & _ & [_ Hk] & Hset).
  exists inst'. split; [done|].
  destruct (cleaned_data !! format_name field c) as [v|] eqn:Hv.
  - by eapply Hset.
  - destruct (Hk c field) as [?|(v & Hv' & _)]; congruence.
Qed.

(** C10.  [save_translated_fields] returns, and the current language of the
    instance it leaves is the active language ([get_language()]), whatever
    the configured languages, the fields and the cleaned data are. *)
Theorem save_translated_fields_current_language cfg active cleaned_data inst :
  ∃ inst',
    save_translated_fields cfg active cleaned_data inst = Ok inst'
    ∧ _current_language inst' = active.
Proof.
  destruct (save_translated_fields_returns cfg cleaned_data active inst)
    as (inst' & Hrun & Hcur & _).
  by exists inst'.
Qed.

(** ** Loading the initial values *)

Section ForEachElement.

Context {A S : Type}.
Variable M : S → S → Prop.
Hypothesis M_refl : ∀ s, M s s.
Hypothesis M_trans : ∀ a b c, M a b → M b c → M a c.

(** When every iteration moves the state along a preorder, so does the loop. *)
Lemma for_each_preorder (body : A → S → Result S) xs s s' :
  (∀ x t t', x ∈ xs → body x t = Ok t' → M t t') →
  for_each body xs s = Ok s' → M s s'.
Proof.
  intros Hstep. apply (for_each_invariant (M s)); [apply M_refl|].
  intros x t t' Hx Ht Hb. eapply M_trans; [exact Ht|]. by eapply Hstep.
Qed.

(** The iteration of an element of the list starts from a state the loop
    reached and ends in a state the loop continued from. *)
Lemma for_each_element (body : A → S → Result S) xs s s' x :
  (∀ y t t', y ∈ xs → body y t = Ok t' → M t t') →
  for_each body xs s = Ok s' →
  x ∈ xs →
  ∃ t t', M s t ∧ body x t = Ok t' ∧ M t' s'.
Proof.
  intros Hstep Hrun Hx.
  apply list_elem_of_split in Hx as (pre & post & ->).
  rewrite for_each_app in Hrun.
  destruct (for_each body pre s) as [t|] eqn:Hpre; [|done].
  simpl in Hrun. destruct (body x t) as [t'|] eqn:Hb; [|done].
  exists t, t'. split_and!; [|done|].
  - eapply for_each_preorder; [|exact Hpre].
    intros y u u' Hy. apply Hstep. apply elem_of_app. by left.
  - eapply for_each_preorder; [|exact Hrun].
    intros y u u' Hy. apply Hstep. apply elem_of_app. right. by right.
Qed.

End ForEachElement.

Section FormInit.

Variable cfg : Settings.
Variable inst : Instance.
Variable initial : gmap string Value.

Lemma keeps_present_refl d : keeps_present d d.
Proof. by intros k v. Qed.

Lemma keeps_present_trans a b c :
  keeps_present a b → keeps_present b c → keeps_present a c.
Proof. intros H1 H2 k v Hk. by apply H2, H1. Qed.

Lemma setdefault_keeps_present k v d : keeps_present d (setdefault k v d).
Proof.
  intros k' v' Hk'. unfold setdefault.
  destruct (d !! k) eqn:Hk; [done|].
  rewrite lookup_insert_ne; [done|]. congruence.
Qed.

Lemma setdefault_lookup k v d : setdefault k v d !! k = Some (default v (d !! k)).
Proof.
  unfold setdefault. destruct (d !! k) eqn:Hk; simpl; [done|].
  apply lookup_insert_eq.
Qed.

Lemma setdefault_lookup_ne k v d k' : k ≠ k' → setdefault k v d !! k' = d !! k'.
Proof.
  intros Hne. unfold setdefault. destruct (d !! k); [done|].
  by apply lookup_insert_ne.
Qed.

Lemma init_unfold :
  TranslatableModelFormMixin_init cfg (Some inst) initial =
  for_each (load_meta cfg inst) (inst_parler_meta inst) initial.
Proof. reflexivity. Qed.

Lemma loads_refl d : loads cfg inst d d.
Proof. split; [apply keeps_present_refl|]. intros k. by left. Qed.

Lemma loads_trans a b c : loads cfg inst a b → loads cfg inst b c → loads cfg inst a c.
Proof.
  intros [Hk1 H1] [Hk2 H2]. split; [by eapply keeps_present_trans|].
  intros k. destruct (H2 k) as [Heq|?]; [|by right].
  rewrite Heq. apply H1.
Qed.

Lemma load_code_step meta field c ini :
  ∃ ini', load_code inst meta field (c, format_name field c) ini = Ok ini'
    ∧ keeps_present ini ini'
    ∧ (∀ k, k ≠ format_name field c → ini' !! k = ini !! k)
    ∧ match _get_translated_model inst meta c with
      | Ok t => ini' !! format_name field c
                = Some (default (translation_getattr t field) (ini !! format_name field c))
      | Raise _ => ini' = ini
      end.
Proof.
  unfold load_code, _get_translated_model.
  destruct (_translations inst !! _) as [t|].
  - eexists. split; [done|]. split_and!.
    + apply setdefault_keeps_present.
    + intros k Hk. by apply setdefault_lookup_ne.
    + apply setdefault_lookup.
  - exists ini. split_and!; [done | apply keeps_present_refl | done | done].
Qed.

Lemma names_elem field p :
  p ∈ _get_translated_fields_names cfg field ↔
  ∃ c, c ∈ _get_available_language_codes cfg ∧ p = (c, format_name field c).
Proof.
  unfold _get_translated_fields_names. rewrite list_elem_of_fmap.
  split; intros (c & H1 & H2); exists c; done.
Qed.

Lemma load_code_loads meta field c ini ini' :
  meta ∈ inst_parler_meta inst → field ∈ meta_translated_fields meta →
  c ∈ _get_available_language_codes cfg →
  load_code inst meta field (c, format_name field c) ini = Ok ini' →
  loads cfg inst ini ini'.
Proof.
  intros Hm Hf Hc Hrun.
  destruct (load_code_step meta field c ini) as (d & Hd & Hk & Hne & Hat).
  rewrite Hrun in Hd. injection Hd as <-.
  split; [done|]. intros k.
  destruct (decide (k = format_name field c)) as [->|Hk']; [|left; by apply Hne].
  destruct (_get_translated_model inst meta c) as [t|e] eqn:Ht; [|left; by rewrite Hat].
  destruct (ini !! format_name field c) as [w|] eqn:Hw.
  - left. by rewrite Hat.
  - right. eexists. split; [exact Hat|]. simpl. by exists meta, field, c, t.
Qed.

Lemma load_field_loads meta field ini ini' :
  meta ∈ inst_parler_meta inst → field ∈ meta_translated_fields meta →
  load_field cfg inst meta field ini = Ok ini' → loads cfg inst ini ini'.
Proof.
  intros Hm Hf. apply (for_each_preorder (loads cfg inst) loads_refl loads_trans).
  intros p t t' Hp. apply names_elem in Hp as (c & Hc & ->).
  by apply load_code_loads.
Qed.

Lemma load_meta_loads meta ini ini' :
  meta ∈ inst_parler_meta inst →
  load_meta cfg inst meta ini = Ok ini' → loads cfg inst ini ini'.
Proof.
  intros Hm. apply (for_each_preorder (loads cfg inst) loads_refl loads_trans).
  intros field t t' Hf. by apply load_field_loads.
Qed.

Lemma load_field_returns meta field ini : ∃ ini', load_field cfg inst meta field ini = Ok ini'.
Proof.
  destruct (for_each_progress (λ _ _, True) (load_code inst meta field)
              (_get_translated_fields_names cfg field) [] ini I) as (d & Hd & _).
  - intros _ p t Hp _. apply names_elem in Hp as (c & _ & ->).
    destruct (load_code_step meta field c t) as (t' & Ht' & _). by exists t'.
  - by exists d.
Qed.

Lemma load_meta_returns meta ini : ∃ ini', load_meta cfg inst meta ini = Ok ini'.
Proof.
  destruct (for_each_progress (λ _ _, True) (load_field cfg inst meta)
              (meta_translated_fields meta) [] ini I) as (d & Hd & _).
  - intros _ field t _ _.
    destruct (load_field_returns meta field t) as (t' & Ht'). by exists t'.
  - by exists d.
Qed.

Lemma init_returns :
  ∃ initial', TranslatableModelFormMixin_init cfg (Some inst) initial = Ok initial'.
Proof.
  rewrite init_unfold.
  destruct (for_each_progress (λ _ _, True) (load_meta cfg inst)
              (inst_parler_meta inst) [] initial I) as (d & Hd & _).
  - intros _ meta t _ _.
    destruct (load_meta_returns meta t) as (t' & Ht'). by exists t'.
  - by exists d.
Qed.

Lemma init_loads initial' :
  TranslatableModelFormMixin_init cfg (Some inst) initial = Ok initial' →
  loads cfg inst initial initial'.
Proof.
  rewrite init_unfold. apply (for_each_preorder (loads cfg inst) loads_refl loads_trans).
  intros meta t t' Hm. by apply load_meta_loads.
Qed.

(** The iteration for an existing translation leaves its key present; the
    state it started from was reached from the initial data. *)
Lemma init_reaches initial' meta field c t :
  TranslatableModelFormMixin_init cfg (Some inst) initial = Ok initial' →
  meta ∈ inst_parler_meta inst → field ∈ meta_translated_fields meta →
  c ∈ _get_available_language_codes cfg →
  _get_translated_model inst meta c = Ok t →
  ∃ d, loads cfg inst initial d
    ∧ initial' !! format_name field c
      = Some (default (translation_getattr t field) (d !! format_name field c)).
Proof.
  rewrite init_unfold. intros Hrun Hm Hf Hc Ht.
  assert (Hs1 : ∀ m' u u', m' ∈ inst_parler_meta inst →
                  load_meta cfg inst m' u = Ok u' → loads cfg inst u u').
  { intros m' u u' Hm'. by apply load_meta_loads. }
  destruct (for_each_element (loads cfg inst) loads_refl loads_trans _ _ _ _ meta Hs1 Hrun Hm)
    as (a & a' & Ha & Hrun1 & Ha').
  assert (Hs2 : ∀ f' u u', f' ∈ meta_translated_fields meta →
                  load_field cfg inst meta f' u = Ok u' → loads cfg inst u u').
  { intros f' u u' Hf'. by apply load_field_loads. }
  destruct (for_each_element (loads cfg inst) loads_refl loads_trans _ _ _ _ field Hs2 Hrun1 Hf)
    as (b & b' & Hb & Hrun2 & Hb').
  assert (Hs3 : ∀ p u u', p ∈ _get_translated_fields_names cfg field →
                  load_code inst meta field p u = Ok u' → loads cfg inst u u').
  { intros p u u' Hp. apply names_elem in Hp as (c' & Hc' & ->).
    by apply load_code_loads. }
  assert (Hp : (c, format_name field c) ∈ _get_translated_fields_names cfg field).
  { apply names_elem. by exists c. }
  destruct (for_each_element (loads cfg inst) loads_refl loads_trans _ _ _ _ _ Hs3 Hrun2 Hp)
    as (d & d' & Hd & Hrun3 & Hd').
  exists d. split.
  - eapply loads_trans; [exact Ha|]. eapply loads_trans; [exact Hb | exact Hd].
  - destruct (load_code_step meta field c d) as (e & He & _ & _ & Hat).
    rewrite Hrun3 in He. injection He as <-. rewrite Ht in Hat.
    apply Ha', Hb', Hd'. exact Hat.
Qed.

End FormInit.


Ltac by_evaluation :=
  match goal with |- ?P => apply (bool_decide_unpack P) end; vm_compute; exact I.

(** The Dutch title is taken from the cleaned data. *)
Lemma save_translated_fields_restores_witness :
  ∃ inst',
    save_translated_fields example_settings "en" example_cleaned_data example_instance
    = Ok inst'
    ∧ translated_value inst' "nl" "title" = Some (VStr "Hallo").
Proof.
  destruct (save_translated_fields_restores example_settings "en"
              example_cleaned_data example_instance "nl" "title")
    as (inst' & Hrun & Hvalue); [by_evaluation | by_evaluation |].
  exists inst'. split; [exact Hrun | exact Hvalue].
Defined.

Lemma example_key_unambiguous field c :
  field ∈ ["title"; "slug"] → c ∈ ["nl"; "de"; "en"] →
  key_unambiguous example_settings example_instance example_meta field c.
Proof.
  intros Hf Hc m' f' c' Hm' Hf' Hc' Hkey.
  apply list_elem_of_singleton in Hm' as ->.
  change (f' ∈ ["title"; "slug"]) in Hf'.
  change (c' ∈ ["nl"; "de"; "en"]) in Hc'.
  split; [done|].
  repeat (apply elem_of_cons in Hf as [->|Hf]); [| |by apply elem_of_nil in Hf];
  repeat (apply elem_of_cons in Hc as [->|Hc]); try (by apply elem_of_nil in Hc);
  repeat (apply elem_of_cons in Hf' as [->|Hf']); try (by apply elem_of_nil in Hf');
  repeat (apply elem_of_cons in Hc' as [->|Hc']); try (by apply elem_of_nil in Hc');
  done.
Qed.



(** ** The article list *)

Section ArticleList.

Import ArticleViews.

Lemma elem_of_filter_published (b : bool) (qs : list Article) a :
  a ∈ filter_qs (published_exact b) qs ↔ a ∈ qs ∧ published a = b.
Proof. simpl. rewrite list_elem_of_filter. tauto. Qed.

Lemma elem_of_filter_has language (qs : list Article) a :
  a ∈ filter_qs (translations_data__has language) qs
  ↔ a ∈ qs ∧ is_Some (translations_data a !! language).
Proof. simpl. rewrite list_elem_of_filter. tauto. Qed.

Lemma elem_of_filter_join language (qs : list Article) a :
  a ∈ filter_qs (translations__language_code language) qs
  ↔ a ∈ qs ∧ ∃ r, r ∈ translations a ∧ row_language_code r = language.
Proof.
  simpl. rewrite list_elem_of_bind. split.
  - intros (b & Hin & Hb). apply list_elem_of_bind in Hin as (r & Ha & Hr).
    apply list_elem_of_singleton in Ha as ->.
    apply list_elem_of_filter in Hr as [Hl Hr]. eauto.
  - intros (Ha & r & Hr & Hl). exists a. split; [|done].
    apply list_elem_of_bind. exists r. split; [by apply list_elem_of_singleton|].
    by apply list_elem_of_filter.
Qed.

(** C7.  The queryset of the article list holds exactly the published
    articles that have a translation in the active language; it is the
    published articles filtered by a lookup that the backend setting selects:
    on the JSON document when [PARLER_BACKEND] is ['json'], through the
    joined translation table otherwise. *)
Theorem article_list_queryset (cfg : Settings) (active : string) (db : list Article) :
  (∀ a, a ∈ ArticleListView_get_queryset cfg active db
        ↔ a ∈ db ∧ published a = true ∧ has_translation cfg a active)
  ∧ ArticleListView_get_queryset cfg active db
    = filter_qs (language_lookup cfg active) (BaseArticleMixin_get_queryset db)
  ∧ language_lookup cfg active
    = (if decide (PARLER_BACKEND cfg = "json")
       then translations_data__has active
       else translations__language_code active).
Proof.
  unfold ArticleListView_get_queryset, language_lookup, has_translation,
    JSON_BACKEND, BaseArticleMixin_get_queryset, ListView_get_queryset.
  split_and!.
  - intros a. case_bool_decide.
    + rewrite elem_of_filter_has, elem_of_filter_published. tauto.
    + rewrite elem_of_filter_join, elem_of_filter_published. tauto.
  - by case_bool_decide.
  - case_bool_decide; case_decide; done.
Qed.

End ArticleList.

(** ** The registry along inheritance *)

Lemma root_new_options parent m entry :
  root parent = Ok entry → root (new_options (Some parent) m) = Ok entry.
Proof.
  unfold root, getitem. simpl.
  destruct (extensions parent) as [|e es]; simpl; [intros [=] | done].
Qed.

Lemma chain_from_root own parent more o :
  root parent = Ok own → o ∈ chain_from parent more → root o = Ok own.
Proof.
  revert parent. induction more as [|m rest IH]; intros parent Hroot Hin; simpl in Hin.
  - by apply elem_of_nil in Hin.
  - apply elem_of_cons in Hin as [->|Hin].
    + by apply root_new_options.
    + eapply IH; [|exact Hin]. by apply root_new_options.
Qed.

Lemma chain_root own more o : o ∈ chain own more → root o = Ok own.
Proof.
  unfold chain. intros [->|Hin]%elem_of_cons; [done|].
  by apply (chain_from_root own (new_options None own) more).
Qed.

(** C2.  For every model of an inheritance chain of translatable models the
    root of the registry is the entry of the top-most level: its
    [root_translations_name] is the translations name of the first level, and
    the registry of a model derived from it has the same root. *)
Theorem inherited_root_is_topmost own more o :
  o ∈ chain own more →
  root o = Ok own
  ∧ root_translations_name o = Ok (translations_name own)
  ∧ ∀ derived, root (new_options (Some o) derived) = root o.
Proof.
  intros Hin. pose proof (chain_root own more o Hin) as Hroot.
  split_and!; [done| |].
  - unfold root_translations_name. by rewrite Hroot.
  - intros derived. rewrite Hroot. by apply root_new_options.
Qed.

(** C3.  A proxy model that declares translations of its own on a base with
    one registry entry: its registry has length 2, the base's entry at index
    0 and the proxy's at index 1, and its root is the base's root. *)
Theorem proxy_registry_stacks base_options proxy_meta :
  len base_options = 1 →
  let proxy_options := new_options (Some base_options) proxy_meta in
  len proxy_options = 2
  ∧ getitem proxy_options 0 = getitem base_options 0
  ∧ getitem proxy_options 1 = Ok proxy_meta
  ∧ root proxy_options = root base_options
  ∧ base proxy_options = Some base_options.
Proof.
  unfold len, root, getitem. simpl. intros Hlen.
  destruct (extensions base_options) as [|e [|e' es]]; simplify_eq/=. done.
Qed.

(** ** Overlapping proxy tables *)

(** C6.  For a proxy model whose translation table overlaps the base's,
    counting succeeds and reports the rows of the table, while fetching any
    of these rows raises [RuntimeError]. *)
Theorem overlapping_proxy_fetch_raises (m : ProxyQuery.ProxyModel) (i : nat) :
  ProxyQuery.overlapping m = true →
  i < length (ProxyQuery.base_table m) →
  ProxyQuery.count m = Ok (length (ProxyQuery.base_table m))
  ∧ ProxyQuery.fetch m i = Raise RuntimeError.
Proof.
  intros Hover Hi. split; [done|].
  unfold ProxyQuery.fetch. apply lookup_lt_is_Some_2 in Hi as [row ->].
  by rewrite Hover.
Qed.

(** [test_inherited_model]: the root of [Level2] is that of [Level1]. *)
Lemma inherited_root_is_topmost_witness :
  root Level2_parler_meta = root Level1_parler_meta
  ∧ root_translations_name Level2_parler_meta = Ok "l1_translations"
  ∧ len Level1_parler_meta = 1 ∧ len Level2_parler_meta = 2.
Proof.
  destruct (inherited_root_is_topmost Level1_meta [Level2_meta] Level2_parler_meta)
    as (Hroot & Hname & _); [apply list_elem_of_further, list_elem_of_here|].
  split; [exact Hroot|]. split; [exact Hname|]. split; reflexivity.
Defined.

(** [test_proxy_model] *)
Lemma proxy_registry_stacks_witness :
  let ProxyModel_parler_meta := new_options (Some ProxyBase_parler_meta) ProxyModel_meta in
  len ProxyModel_parler_meta = 2
  ∧ getitem ProxyModel_parler_meta 0 = Ok ProxyBase_meta
  ∧ getitem ProxyModel_parler_meta 1 = Ok ProxyModel_meta
  ∧ root ProxyModel_parler_meta = root ProxyBase_parler_meta.
Proof.
  destruct (proxy_registry_stacks ProxyBase_parler_meta ProxyModel_meta eq_refl)
    as (Hlen & H0 & H1 & Hroot & _).
  split; [exact Hlen|]. split; [exact H0|]. split; [exact H1 | exact Hroot].
Defined.

(** [test_overlapping_proxy_model]: one row is created through the base
    model; the proxy counts it and fails to fetch it. *)
Lemma overlapping_proxy_fetch_raises_witness :
  let RegularModelProxy :=
    ProxyQuery.create (98%Z, "untranslated")
      {| ProxyQuery.base_table := []; ProxyQuery.overlapping := true |} in
  ProxyQuery.count RegularModelProxy = Ok 1
  ∧ ProxyQuery.fetch RegularModelProxy 0 = Raise RuntimeError.
Proof.
  exact (overlapping_proxy_fetch_raises
           (ProxyQuery.create (98%Z, "untranslated")
              {| ProxyQuery.base_table := []; ProxyQuery.overlapping := true |})
           0 eq_refl (Nat.lt_0_succ 0)).
Defined.

(** ** Class construction: what happens to the class dictionary *)

Section ClassDictionary.

Variable cfg : Settings.
Variable _get_model_form_field :
  TranslationsModel → string → option AttrValue → Kwargs → FormField.

Lemma changes_refl tms a : changes cfg _get_model_form_field tms a a.
Proof. intros k. by left. Qed.

Lemma changes_trans tms a b c :
  changes cfg _get_model_form_field tms a b →
  changes cfg _get_model_form_field tms b c →
  changes cfg _get_model_form_field tms a c.
Proof.
  intros Hab Hbc k.
  destruct (Hbc k) as [Heq|[(-> & m & m' & Hm & Hm')|Hgen]].
  - rewrite Heq. apply Hab.
  - destruct (Hab "Meta") as [Heq|[(_ & m0 & m1 & Hm0 & Hm1)|(v & Hv & Hg)]].
    + right; left. split; [done|]. exists m, m'. by rewrite <- Heq.
    + right; left. split; [done|]. by exists m0, m'.
    + destruct Hg as (? & ? & ? & ? & ? & _ & _ & _ & _ & ->). congruence.
  - by right; right.
Qed.

Lemma changes_mono tms tms' a a' :
  tms ⊆ tms' →
  changes cfg _get_model_form_field tms a a' →
  changes cfg _get_model_form_field tms' a a'.
Proof.
  intros Hsub H k. destruct (H k) as [?|[?|(v & Hv & Hg)]]; [by left | by right; left |].
  right; right. exists v. split; [done|].
  destruct Hg as (tm & f & c & cb & kw & Htm & Hrest).
  exists tm, f, c, cb, kw. split; [by apply Hsub | done].
Qed.

Lemma store_translated_fields_changes tm f_name callback kwargs names a :
  f_name ∈ get_translated_fields tm →
  names ⊆ _get_translated_fields_names cfg f_name →
  changes cfg _get_model_form_field [tm] a
    (store_translated_fields cfg _get_model_form_field tm f_name callback kwargs names a).
Proof.
  intros Hf. revert a. induction names as [|[c t_name] rest IH]; intros a Hsub; simpl.
  - apply changes_refl.
  - eapply changes_trans; [|apply IH; intros p Hp; apply Hsub; by right].
    assert (Hin : (c, t_name) ∈ _get_translated_fields_names cfg f_name)
      by (apply Hsub; left).
    unfold _get_translated_fields_names in Hin.
    apply list_elem_of_fmap in Hin as (c' & [= <- ->] & Hc).
    intros k. destruct (decide (k = format_name f_name c)) as [->|Hne].
    + right; right. eexists. split; [apply lookup_insert_eq|].
      exists tm, f_name, c, callback, kwargs. split_and!; [left | done..].
    + left. by apply lookup_insert_ne.
Qed.

Lemma set_form_new_meta_fields_changes tms value st st' :
  set_form_new_meta_fields value st = Ok st' →
  changes cfg _get_model_form_field tms (attrs st) (attrs st').
Proof.
  unfold set_form_new_meta_fields.
  destruct (attrs st !! "Meta") as [[| |m|]|] eqn:Hm; intros [= <-]; simpl;
    [|apply changes_refl].
  intros k. destruct (decide (k = "Meta")) as [->|Hne].
  - right; left. split; [done|]. eexists _, _. split; [done|]. apply lookup_insert_eq.
  - left. by apply lookup_insert_ne.
Qed.

Lemma handle_field_changes bases tm form_base_fields translated_fields loc f_name st st' :
  f_name ∈ get_translated_fields tm →
  handle_field cfg _get_model_form_field bases tm form_base_fields translated_fields
    loc f_name st = Ok st' →
  changes cfg _get_model_form_field [tm] (attrs st) (attrs st').
Proof.
  intros Hf. unfold handle_field.
  case_bool_decide; [done|].
  destruct (_ && _); [|intros [= <-]; apply changes_refl].
  destruct (get_field tm f_name) as [fld|]; simpl; [|done].
  destruct (editable fld); simpl; [|intros [= <-]; apply changes_refl].
  destruct (l_fields loc) as [fields|]; simpl.
  - destruct (zip_second _) as [replacement|]; simpl; [|done].
    destruct (_replace_field _ _ _) as [new_fields|]; simpl; [|done].
    destruct (set_form_new_meta_fields _ st) as [st1|] eqn:Hset; simpl; [|done].
    intros [= <-]. simpl.
    eapply changes_trans; [by eapply set_form_new_meta_fields_changes|].
    by apply store_translated_fields_changes.
  - intros [= <-]. simpl. by apply store_translated_fields_changes.
Qed.

Lemma _handle_translation_model_changes bases tm form_base_fields translated_fields st st' :
  _handle_translation_model cfg _get_model_form_field bases tm form_base_fields
    translated_fields st = Ok st' →
  changes cfg _get_model_form_field [tm] (attrs st) (attrs st').
Proof.
  unfold _handle_translation_model.
  apply (for_each_preorder (λ s s', changes cfg _get_model_form_field [tm] (attrs s) (attrs s'))).
  - intros s. apply changes_refl.
  - intros s1 s2 s3. apply changes_trans.
  - intros f t t' Hf. by apply handle_field_changes.
Qed.

Lemma TranslatableModelFormMetaclass_new_changes bases a a' fm' :
  TranslatableModelFormMetaclass_new cfg _get_model_form_field bases a = Ok (a', fm') →
  ∃ tms, changes cfg _get_model_form_field tms a a'
    ∧ (a' = a ∨ ∃ fm model, bases_meta bases = Some fm
          ∧ o_model (form_new_meta {| attrs := a; form_meta := fm |}) = Some (Some model)
          ∧ tms = get_all_models model).
Proof.
  unfold TranslatableModelFormMetaclass_new.
  destruct (bases_meta bases) as [fm|].
  2:{ intros [= <- <-]. exists []. split; [apply changes_refl | by left]. }
  destruct (o_model _) as [[model|]|] eqn:Hmodel; [| |done].
  2:{ intros [= <- <-]. exists []. split; [apply changes_refl | by left]. }
  destruct (for_each _ _ _) as [st'|] eqn:Hrun; simpl; [|done].
  intros [= <- <-]. exists (get_all_models model). split; [|right; by exists fm, model].
  revert Hrun.
  apply (for_each_preorder
           (λ s s', changes cfg _get_model_form_field (get_all_models model)
                      (attrs s) (attrs s'))).
  - intros s. apply changes_refl.
  - intros s1 s2 s3. apply changes_trans.
  - intros tm t t' Htm Hrun.
    eapply changes_mono; [|by eapply _handle_translation_model_changes].
    by intros x ->%list_elem_of_singleton.
Qed.

End ClassDictionary.

(** C9.  After class construction every entry of the class dictionary is
    untouched, or is the [Meta] class, or is a generated per-language form
    field: bound to ['{field}_{code}'] for a translated field of the model
    and a configured language code, required exactly when the code is
    [PARLER_DEFAULT_LANGUAGE_CODE], labelled with the base field's label
    followed by [' ({code})'], and with [language_code] set to the code. *)
Theorem generated_fields_are_localized cfg gmff bases a a' fm' :
  TranslatableModelFormMetaclass_new cfg gmff bases a = Ok (a', fm') →
  ∀ k,
    a' !! k = a !! k
    ∨ (k = "Meta" ∧ ∃ m m', a !! k = Some (AMeta m) ∧ a' !! k = Some (AMeta m'))
    ∨ ∃ formfield f_name c tm callback kwargs,
        a' !! k = Some (AField formfield)
        ∧ k = format_name f_name c
        ∧ c ∈ _get_available_language_codes cfg
        ∧ f_name ∈ get_translated_fields tm
        ∧ (required formfield = true ↔ c = PARLER_DEFAULT_LANGUAGE_CODE cfg)
        ∧ label formfield
          = label (gmff tm f_name callback kwargs) +:+ " (" +:+ c +:+ ")"
        ∧ language_code formfield = Some c.
Proof.
  intros Hnew k.
  destruct (TranslatableModelFormMetaclass_new_changes cfg gmff bases a a' fm' Hnew)
    as (tms & Hch & _).
  destruct (Hch k) as [?|[?|(v & Hv & Hg)]]; [by left | by right; left |].
  right; right.
  destruct Hg as (tm & f & c & cb & kw & _ & Hf & Hc & -> & ->).
  eexists _, f, c, tm, cb, kw. split_and!; [exact Hv | done..| | done | done].
  simpl. unfold _get_default_language. by rewrite bool_decide_eq_true.
Qed.

Lemma generated_fields_are_localized_witness :
  ∃ a' fm' formfield c,
    example_class = Ok (a', fm')
    ∧ a' !! "title_nl" = Some (AField formfield)
    ∧ language_code formfield = Some c
    ∧ (required formfield = true ↔ c = "en").
Proof.
  pose (r := match example_class with Ok p => p | Raise _ => (∅, None) end).
  assert (Hr : example_class = Ok (r.1, r.2)) by (vm_compute; reflexivity).
  destruct (generated_fields_are_localized example_settings example_get_model_form_field
              example_bases example_attrs r.1 r.2 Hr "title_nl")
    as [Hsame|[[Hmeta _]|(ff & f & c & tm & cb & kw & Hk & _ & _ & _ & Hreq & _ & Hlang)]].
  - vm_compute in Hsame. discriminate Hsame.
  - discriminate Hmeta.
  - exists r.1, r.2, ff, c. split; [exact Hr|]. split; [exact Hk|].
    split; [exact Hlang | exact Hreq].
Defined.

(** ** Placeholders declared on the class *)

Lemma for_each_raises {A S : Type} (body : A → S → Result S) xs x s :
  x ∈ xs → (∀ t, ∃ e, body x t = Raise e) → ∃ e, for_each body xs s = Raise e.
Proof.
  intros Hx Hraise. revert s. induction xs as [|y ys IH]; intros s.
  - by apply elem_of_nil in Hx.
  - simpl. apply elem_of_cons in Hx as [<-|Hx].
    + destruct (Hraise s) as [e ->]. by exists e.
    + destruct (body y s) as [t|e]; [by apply IH | by exists e].
Qed.

(** A placeholder among the translated fields of a translations model makes
    class construction fail: the placeholders are collected as a list of
    names, which is then indexed by a name. *)
Lemma placeholder_raises cfg gmff bases a fm model tm f_name kwargs :
  bases_meta bases = Some fm →
  o_model (form_new_meta {| attrs := a; form_meta := fm |}) = Some (Some model) →
  tm ∈ get_all_models model →
  f_name ∈ get_translated_fields tm →
  a !! f_name = Some (APlaceholder kwargs) →
  ∃ e, TranslatableModelFormMetaclass_new cfg gmff bases a = Raise e.
Proof.
  intros Hfm Hmodel Htm Hf Hph. unfold TranslatableModelFormMetaclass_new.
  rewrite Hfm, Hmodel.
  match goal with |- context [for_each ?body ?xs ?s] =>
    destruct (for_each_raises body xs tm s Htm) as [e ->]; [|by exists e] end.
  intros t. unfold _handle_translation_model.
  apply for_each_raises with (x := f_name); [done|].
  intros u. exists TypeError. unfold handle_field.
  rewrite bool_decide_eq_true_2; [done|].
  apply list_elem_of_fmap. exists (f_name, APlaceholder kwargs). split; [done|].
  apply list_elem_of_filter. split; [done|]. by apply elem_of_map_to_list.
Qed.

(** C8.  On the worked class with [title = TranslatedField(label='Title')]
    declared, class construction raises [TypeError]; no form field is built
    for the placeholder and no class is made. *)
Theorem placeholder_declaration_raises gmff :
  example_attrs_placeholder !! "title" = Some (APlaceholder {[ "label" := "Title" ]})
  ∧ TranslatableModelFormMetaclass_new example_settings gmff example_bases
      example_attrs_placeholder = Raise TypeError.
Proof. split; vm_compute; reflexivity. Qed.

(** ** [Meta.fields] after class construction *)

(** C1.  On the worked class, class construction returns and injects the six
    per-language fields, but [Meta.fields] still lists [title] and lacks its
    per-language names: only [slug], the last translated field, is replaced.
    [TranslatableAdmin.translated_for_model] replaces both on the same
    input. *)
Theorem meta_fields_replaces_last_field_only gmff :
  let cls := TranslatableModelFormMetaclass_new example_settings gmff example_bases
               example_attrs in
  Meta_fields cls
  = Some (PySeq ["title"; "slug_nl"; "slug_de"; "slug_en"; "published"])
  ∧ (∀ k, k ∈ ["title_nl"; "title_de"; "title_en"; "slug_nl"; "slug_de"; "slug_en"] →
       ∃ a' fm' formfield, cls = Ok (a', fm') ∧ a' !! k = Some (AField formfield))
  ∧ translated_for_model_fields example_settings
      (Some ["title"; "slug"; "published"]) example_model
    = Ok (Some ["title_nl"; "title_de"; "title_en";
                "slug_nl"; "slug_de"; "slug_en"; "published"]).
Proof.
  split_and!.
  - vm_compute. reflexivity.
  - intros k Hk.
    repeat (apply elem_of_cons in Hk as [->|Hk]); [..|by apply elem_of_nil in Hk];
      eexists _, _, _; split; vm_compute; reflexivity.
  - vm_compute. reflexivity.
Qed.

(** ** [_replace_field] and the fields option in general *)

Lemma index_first x pre post :
  x ∉ pre → index x (pre ++ x :: post) = Ok (length pre).
Proof.
  induction pre as [|y pre IH]; intros Hx; simpl.
  - by rewrite decide_True.
  - rewrite decide_False by (intros ->; apply Hx; left).
    rewrite IH; [done|]. intros Hin. apply Hx. by right.
Qed.

Lemma index_Ok_inv x xs i :
  index x xs = Ok i →
  ∃ pre post, xs = pre ++ (x :: post) ∧ (x ∉ pre) ∧ i = length pre.
Proof.
  revert i. induction xs as [|y xs IH]; intros i; simpl; [done|].
  case_decide as Hy.
  - intros [= <-]. subst y. exists [], xs. split_and!; [done| |done].
    by intros ?%elem_of_nil.
  - destruct (index x xs) as [j|] eqn:Hj; [|done]. intros [= <-].
    destruct (IH j eq_refl) as (pre & post & -> & Hpre & ->).
    exists (y :: pre), post. split_and!; [done| |done].
    intros [?|?]%elem_of_cons; [congruence | done].
Qed.

Lemma index_raises x xs : x ∉ xs → index x xs = Raise ValueError.
Proof.
  induction xs as [|y xs IH]; intros Hx; simpl; [done|].
  rewrite decide_False by (intros ->; apply Hx; left).
  rewrite IH; [done|]. intros Hin. apply Hx. by right.
Qed.

(** The first occurrence of [name] gives way to [replacement]; the entries
    before and after it keep their places. *)
Lemma _replace_field_first pre post name replacement :
  name ∉ pre →
  _replace_field (pre ++ name :: post) name replacement = Ok (pre ++ replacement ++ post).
Proof.
  intros Hpre. unfold _replace_field. rewrite index_first by done. simpl.
  rewrite take_app_length, drop_app_add. done.
Qed.

Lemma _replace_field_Ok_inv fields name replacement new_fields :
  _replace_field fields name replacement = Ok new_fields →
  ∃ pre post, fields = pre ++ (name :: post) ∧ (name ∉ pre)
              ∧ new_fields = pre ++ replacement ++ post.
Proof.
  intros Hrep.
  destruct (index name fields) as [i|] eqn:Hi.
  - destruct (index_Ok_inv _ _ _ Hi) as (pre & post & -> & Hpre & _).
    rewrite _replace_field_first in Hrep by done. injection Hrep as <-.
    by exists pre, post.
  - unfold _replace_field in Hrep. by rewrite Hi in Hrep.
Qed.

Lemma _replace_field_raises fields name replacement :
  name ∉ fields → _replace_field fields name replacement = Raise ValueError.
Proof. intros Hn. unfold _replace_field. by rewrite index_raises. Qed.

(** A generated name is never ["Meta"]. *)
Lemma format_name_ne_Meta f c : format_name f c ≠ "Meta".
Proof.
  unfold format_name.
  destruct f as [|a1 [|a2 [|a3 [|a4 [|a5 f]]]]]; simpl; intros H; by inversion H.
Qed.

Section MetaFields.

Variable cfg : Settings.
Variable _get_model_form_field :
  TranslationsModel → string → option AttrValue → Kwargs → FormField.

Lemma zip_second_Ok names replacement :
  zip_second names = Ok replacement → replacement = snd <$> names.
Proof. destruct names; [done|]. by intros [= <-]. Qed.

Lemma generated_names f_name :
  snd <$> _get_translated_fields_names cfg f_name
  = format_name f_name <$> _get_available_language_codes cfg.
Proof. unfold _get_translated_fields_names. by rewrite <- list_fmap_compose. Qed.

Lemma store_translated_fields_Meta tm f_name callback kwargs names a :
  names ⊆ _get_translated_fields_names cfg f_name →
  store_translated_fields cfg _get_model_form_field tm f_name callback kwargs names a
    !! "Meta" = a !! "Meta".
Proof.
  revert a. induction names as [|[c t_name] rest IH]; intros a Hsub; simpl; [done|].
  rewrite IH by (intros p Hp; apply Hsub; by right).
  assert (Hin : (c, t_name) ∈ _get_translated_fields_names cfg f_name)
    by (apply Hsub; left).
  apply list_elem_of_fmap in Hin as (c' & [= <- ->] & Hc).
  apply lookup_insert_ne, format_name_ne_Meta.
Qed.

Lemma form_new_meta_set_attrs a st :
  a !! "Meta" = attrs st !! "Meta" → form_new_meta (set_attrs a st) = form_new_meta st.
Proof. intros Ha. unfold form_new_meta. simpl. by rewrite Ha. Qed.

Lemma set_form_new_meta_fields_read value st st' :
  set_form_new_meta_fields value st = Ok st' →
  o_fields (form_new_meta st') = Some value.
Proof.
  unfold set_form_new_meta_fields, form_new_meta.
  destruct (attrs st !! "Meta") as [[| |m|]|] eqn:Hm; intros [= <-]; simpl.
  - by rewrite lookup_insert_eq.
  - by rewrite Hm.
Qed.

(** What one run over a translations model does to [Meta.fields]: nothing,
    or it replaces a single translated field in the sequence that was read
    before the loop.  Replacements of earlier fields of the same translations
    model do not survive. *)
Lemma _handle_translation_model_fields bases tm form_base_fields translated_fields
    st st' fields :
  _handle_translation_model cfg _get_model_form_field bases tm form_base_fields
    translated_fields st = Ok st' →
  l_fields (read_locals st) = Some fields →
  o_fields (form_new_meta st') = o_fields (form_new_meta st)
  ∨ ∃ f_name pre post,
      f_name ∈ get_translated_fields tm
      ∧ fields = pre ++ (f_name :: post) ∧ (f_name ∉ pre)
      ∧ o_fields (form_new_meta st')
        = Some (PySeq (pre ++ (format_name f_name <$> _get_available_language_codes cfg)
                           ++ post)).
Proof.
  intros Hrun Hfields. unfold _handle_translation_model in Hrun.
  remember (read_locals st) as loc eqn:Hloc. clear Hloc.
  revert Hrun.
  apply (for_each_invariant (λ s,
    o_fields (form_new_meta s) = o_fields (form_new_meta st)
    ∨ ∃ f_name pre post,
        f_name ∈ get_translated_fields tm
        ∧ fields = pre ++ (f_name :: post) ∧ (f_name ∉ pre)
        ∧ o_fields (form_new_meta s)
          = Some (PySeq (pre ++ (format_name f_name <$> _get_available_language_codes cfg)
                             ++ post)))); [by left|].
  intros f t t' Hf HP Hstep. unfold handle_field in Hstep.
  case_bool_decide; [done|].
  destruct (_ && _) eqn:Hcond; [|injection Hstep as <-; exact HP].
  destruct (get_field tm f) as [fld|]; simpl in Hstep; [|done].
  destruct (editable fld); simpl in Hstep; [|injection Hstep as <-; exact HP].
  rewrite Hfields in Hstep. simpl in Hstep.
  destruct (zip_second _) as [replacement|] eqn:Hzip; simpl in Hstep; [|done].
  destruct (_replace_field _ _ _) as [new_fields|] eqn:Hrep; simpl in Hstep; [|done].
  destruct (set_form_new_meta_fields _ t) as [t1|] eqn:Hset; simpl in Hstep; [|done].
  injection Hstep as <-. right.
  rewrite form_new_meta_set_attrs by (by apply store_translated_fields_Meta).
  rewrite (set_form_new_meta_fields_read _ _ _ Hset).
  assert (Hin : f ∈ fields).
  { rewrite !andb_true_iff in Hcond. destruct Hcond as [[[_ Hin] _] _].
    apply bool_decide_eq_true in Hin. rewrite Hfields in Hin. simpl in Hin.
    by destruct Hin. }
  assert (Hrepl : replacement = format_name f <$> _get_available_language_codes cfg).
  { apply zip_second_Ok in Hzip as ->. apply generated_names. }
  destruct fields as [|f0 fields']; [by apply elem_of_nil in Hin|].
  apply _replace_field_Ok_inv in Hrep as (pre & post & Heq & Hpre & ->).
  exists f, pre, post. by rewrite Hrepl.
Qed.

End MetaFields.

Section Injection.

Variable cfg : Settings.
Variable _get_model_form_field :
  TranslationsModel → string → option AttrValue → Kwargs → FormField.

Lemma changes_None tms a a' k :
  changes cfg _get_model_form_field tms a a' → a' !! k = None → a !! k = None.
Proof.
  intros Hch Hk. destruct (Hch k) as [<-|[(_ & m & m' & _ & ?)|(v & ? & _)]]; congruence.
Qed.

(** A generated entry stays generated. *)
Lemma changes_generated tms a a' k v :
  changes cfg _get_model_form_field tms a a' →
  a !! k = Some v → generated cfg _get_model_form_field tms k v →
  ∃ v', a' !! k = Some v' ∧ generated cfg _get_model_form_field tms k v'.
Proof.
  intros Hch Hk Hg. destruct (Hch k) as [Heq|[(_ & m & m' & Hm & _)|?]]; [|exfalso|done].
  - exists v. by rewrite Heq.
  - destruct Hg as (? & ? & ? & ? & ? & _ & _ & _ & _ & ->). congruence.
Qed.

Lemma store_translated_fields_lookup tm f_name callback kwargs names a c :
  f_name ∈ get_translated_fields tm →
  names ⊆ _get_translated_fields_names cfg f_name →
  (c, format_name f_name c) ∈ names →
  ∃ v,
    store_translated_fields cfg _get_model_form_field tm f_name callback kwargs names a
      !! format_name f_name c = Some v
    ∧ generated cfg _get_model_form_field [tm] (format_name f_name c) v.
Proof.
  intros Hf. revert a. induction names as [|[c' t_name] rest IH]; intros a Hsub Hin.
  - by apply elem_of_nil in Hin.
  - simpl. assert (Hrest : rest ⊆ _get_translated_fields_names cfg f_name)
      by (intros p Hp; apply Hsub; by right).
    apply elem_of_cons in Hin as [Heq|Hin]; [|by apply IH].
    injection Heq as <- <-.
    eapply changes_generated;
      [by apply store_translated_fields_changes | apply lookup_insert_eq |].
    assert (Hc : (c, format_name f_name c) ∈ _get_translated_fields_names cfg f_name)
      by (apply Hsub; left).
    apply list_elem_of_fmap in Hc as (c0 & Heq & Hc). injection Heq as <-.
    exists tm, f_name, c, callback, kwargs. split_and!; [left | done..].
Qed.

(** Injection, for one translations model: a translated field
    that passes the checks of the loop gets a generated form field under each
    of its per-language names. *)
Lemma _handle_translation_model_injects bases tm form_base_fields translated_fields
    st st' f_name fld c :
  _handle_translation_model cfg _get_model_form_field bases tm form_base_fields
    translated_fields st = Ok st' →
  f_name ∈ get_translated_fields tm →
  f_name ∉ translated_fields →
  form_base_fields !! f_name = None →
  l_fields (read_locals st) = None ∨ f_name ∈ default [] (l_fields (read_locals st)) →
  f_name ∉ l_exclude (read_locals st) →
  attrs st' !! f_name = None →
  get_field tm f_name = Ok fld → editable fld = true →
  c ∈ _get_available_language_codes cfg →
  ∃ v,
    attrs st' !! format_name f_name c = Some v
    ∧ generated cfg _get_model_form_field [tm] (format_name f_name c) v.
Proof.
  intros Hrun Hf Hph Hbase Hfields Hexcl Hattr Hfld Hed Hc.
  unfold _handle_translation_model in Hrun.
  remember (read_locals st) as loc eqn:Hloc. clear Hloc.
  pose (M := λ s s' : State, changes cfg _get_model_form_field [tm] (attrs s) (attrs s')).
  assert (Hstep : ∀ y t t', y ∈ get_translated_fields tm →
            handle_field cfg _get_model_form_field bases tm form_base_fields
              translated_fields loc y t = Ok t' → M t t').
  { intros y t t' Hy. by apply handle_field_changes. }
  assert (Hrefl : ∀ s, M s s) by (intros s; apply changes_refl).
  assert (Htrans : ∀ s1 s2 s3, M s1 s2 → M s2 s3 → M s1 s3)
    by (intros s1 s2 s3; apply changes_trans).
  destruct (for_each_element M Hrefl Htrans _ _ _ _ f_name Hstep Hrun Hf)
    as (t & t' & Ht & Hbody & Ht').
  assert (Htt' : M t t') by (by eapply Hstep).
  assert (Hnone : attrs t !! f_name = None).
  { eapply changes_None; [exact Htt'|]. eapply changes_None; [exact Ht' | exact Hattr]. }
  unfold handle_field in Hbody.
  rewrite bool_decide_eq_false_2 in Hbody by done.
  rewrite !bool_decide_eq_true_2 in Hbody by done.
  simpl in Hbody. rewrite Hfld in Hbody. simpl in Hbody. rewrite Hed in Hbody.
  simpl in Hbody.
  match type of Hbody with
  | (?r ≫= _) = _ => destruct r as [t1|] eqn:Ht1; simpl in Hbody; [|done]
  end.
  injection Hbody as <-.
  simpl.
  edestruct (store_translated_fields_lookup tm f_name) as (v & Hv & Hg);
    [exact Hf | | | eapply changes_generated; [exact Ht' | exact Hv | exact Hg]].
  - done.
  - apply list_elem_of_fmap. by exists c.
Qed.

End Injection.

(** * Further properties of the form and admin code *)

(** ** [_replace_field] *)

(** X1.  When [name] occurs in [fields], [_replace_field] returns, and the
    result is [fields] with the first occurrence of [name] giving way to
    [replacement]: the entries before and after it, later occurrences of
    [name] among them, keep their order. *)
Theorem replace_field_first_occurrence fields name replacement :
  name ∈ fields →
  ∃ pre post,
    fields = pre ++ (name :: post) ∧ (name ∉ pre)
    ∧ _replace_field fields name replacement = Ok (pre ++ replacement ++ post).
Proof.
  intros Hin. apply list_elem_of_split_l in Hin as (pre & post & -> & Hpre).
  exists pre, post. split_and!; [done..|]. by apply _replace_field_first.
Qed.

Lemma replace_field_first_occurrence_witness :
  _replace_field ["title"; "slug"; "title"] "title" ["title_nl"; "title_en"]
  = Ok ["title_nl"; "title_en"; "slug"; "title"].
Proof.
  destruct (replace_field_first_occurrence ["title"; "slug"; "title"] "title"
              ["title_nl"; "title_en"]) as (pre & post & Hsplit & Hpre & Hrun);
    [by_evaluation|].
  rewrite Hrun. f_equal.
  destruct pre as [|x pre].
  - simpl in Hsplit. injection Hsplit as <-. reflexivity.
  - injection Hsplit as <- Hrest. exfalso. apply Hpre. left.
Defined.

Lemma _replace_field_Raise_inv fields name replacement e :
  _replace_field fields name replacement = Raise e → e = ValueError ∧ name ∉ fields.
Proof.
  intros He. destruct (decide (name ∈ fields)) as [Hin|Hnin].
  - apply list_elem_of_split_l in Hin as (pre & post & -> & Hpre).
    rewrite _replace_field_first in He by done. congruence.
  - rewrite _replace_field_raises in He by done. split; [congruence | done].
Qed.

(** X2.  [_replace_field] raises exactly when [name] does not occur in
    [fields], and then the exception is [ValueError] (from [fields.index]);
    it raises no other exception. *)
Theorem replace_field_raises_iff fields name replacement :
  (name ∉ fields ↔ _replace_field fields name replacement = Raise ValueError)
  ∧ ∀ e, _replace_field fields name replacement = Raise e → e = ValueError.
Proof.
  split.
  - split; [apply _replace_field_raises|].
    intros Hraise. by apply _replace_field_Raise_inv in Hraise as [_ ?].
  - intros e He. by apply _replace_field_Raise_inv in He as [? _].
Qed.

Lemma replace_field_absent_after a b ra fields x :
  a ≠ b → b ∉ ra → b ∉ fields →
  _replace_field fields a ra = Ok x → b ∉ x.
Proof.
  intros Hab Hra Hb Hx. apply _replace_field_Ok_inv in Hx as (pre & post & -> & _ & ->).
  rewrite !not_elem_of_app, not_elem_of_cons in *. tauto.
Qed.

Lemma replace_field_both_present a b ra rb pre mid post :
  a ≠ b → a ∉ rb → b ∉ ra → a ∉ pre → b ∉ pre → b ∉ mid →
  (_replace_field (pre ++ a :: mid ++ b :: post) a ra ≫= λ x, _replace_field x b rb)
  = Ok (pre ++ ra ++ mid ++ rb ++ post)
  ∧ (_replace_field (pre ++ a :: mid ++ b :: post) b rb ≫= λ x, _replace_field x a ra)
    = Ok (pre ++ ra ++ mid ++ rb ++ post).
Proof.
  intros Hab Harb Hbra Hap Hbp Hbm. split.
  - rewrite _replace_field_first by done. simpl.
    replace (pre ++ ra ++ mid ++ b :: post) with ((pre ++ ra ++ mid) ++ b :: post)
      by (by rewrite <- !app_assoc).
    rewrite _replace_field_first by (rewrite !not_elem_of_app; tauto).
    by rewrite <- !app_assoc.
  - replace (pre ++ a :: mid ++ b :: post) with ((pre ++ a :: mid) ++ b :: post)
      by (by rewrite <- app_assoc).
    rewrite _replace_field_first
      by (rewrite not_elem_of_app, not_elem_of_cons; naive_solver).
    simpl. rewrite <- app_assoc. simpl.
    rewrite _replace_field_first by done. done.
Qed.

(** X3.  Two replacements commute: for different names whose replacements do
    not contain the other name, replacing one and then the other gives the
    same sequence, or the same [ValueError], in either order. *)
Theorem replace_field_commute fields a b ra rb :
  a ≠ b → a ∉ rb → b ∉ ra →
  (_replace_field fields a ra ≫= λ x, _replace_field x b rb)
  = (_replace_field fields b rb ≫= λ x, _replace_field x a ra).
Proof.
  intros Hab Harb Hbra.
  destruct (decide (a ∈ fields)) as [Ha|Ha]; destruct (decide (b ∈ fields)) as [Hb|Hb].
  - apply list_elem_of_split_l in Ha as (pre & post & -> & Hpre).
    destruct (decide (b ∈ pre)) as [Hbpre|Hbpre].
    + apply list_elem_of_split_l in Hbpre as (p1 & p2 & -> & Hp1).
      rewrite not_elem_of_app, not_elem_of_cons in Hpre. destruct Hpre as (Ha1 & _ & Ha2).
      rewrite <- app_assoc. simpl.
      destruct (replace_field_both_present b a rb ra p1 p2 post) as [E1 E2]; try done.
      by rewrite E1, E2.
    + apply elem_of_app in Hb as [?|Hb]; [done|].
      apply elem_of_cons in Hb as [?|Hb]; [congruence|].
      apply list_elem_of_split_l in Hb as (q1 & q2 & -> & Hq1).
      destruct (replace_field_both_present a b ra rb pre q1 q2) as [E1 E2]; try done.
      by rewrite E1, E2.
  - rewrite (_replace_field_raises fields b) by done. simpl.
    destruct (_replace_field fields a ra) as [x|e] eqn:Hx; simpl.
    + apply _replace_field_raises.
      by apply (replace_field_absent_after a b ra fields x).
    + by apply _replace_field_Raise_inv in Hx as [-> _].
  - rewrite (_replace_field_raises fields a) by done. simpl.
    destruct (_replace_field fields b rb) as [x|e] eqn:Hx; simpl.
    + symmetry. apply _replace_field_raises.
      by apply (replace_field_absent_after b a rb fields x).
    + by apply _replace_field_Raise_inv in Hx as [-> _].
  - by rewrite !_replace_field_raises.
Qed.

Lemma replace_field_commute_witness :
  (_replace_field ["title"; "slug"; "published"] "slug" ["slug_nl"]
     ≫= λ x, _replace_field x "title" ["title_nl"])
  = Ok ["title_nl"; "slug_nl"; "published"].
Proof.
  rewrite <- (replace_field_commute ["title"; "slug"; "published"] "title" "slug"
                ["title_nl"] ["slug_nl"]); [reflexivity | by_evaluation..].
Defined.

(** ** Generated names *)

Lemma append_inj_r (s a b : string) : s +:+ a = s +:+ b → a = b.
Proof. induction s as [|ch s IH]; simpl; [done|]. intros [= H]. by apply IH. Qed.

Lemma append_ne_self (s a : string) : a ≠ "" → s +:+ a ≠ s.
Proof.
  intros Ha. induction s as [|ch s IH]; simpl; [done|]. intros [= H]. by apply IH.
Qed.

Lemma format_name_inj name c c' : format_name name c = format_name name c' → c = c'.
Proof. unfold format_name. intros H%append_inj_r. by injection H. Qed.

Lemma format_name_ne name c : format_name name c ≠ name.
Proof. unfold format_name. by apply append_ne_self. Qed.

(** X4.  The generated names of a field are one per language: for codes
    without repetition they are pairwise different, and none of them is the
    name of the field itself. *)
Theorem generated_names_distinct cfg name :
  NoDup (_get_available_language_codes cfg) →
  NoDup (snd <$> _get_translated_fields_names cfg name)
  ∧ (name ∉ snd <$> _get_translated_fields_names cfg name)
  ∧ fst <$> _get_translated_fields_names cfg name = _get_available_language_codes cfg.
Proof.
  intros Hnd. unfold _get_translated_fields_names. rewrite <- !list_fmap_compose.
  split_and!.
  - apply NoDup_fmap_2_strong; [|done]. intros c c' _ _ H. by apply format_name_inj in H.
  - intros (c & Hc & _)%list_elem_of_fmap. by eapply format_name_ne.
  - by rewrite <- (list_fmap_id (_get_available_language_codes cfg)) at 2.
Qed.

Lemma generated_names_distinct_witness :
  NoDup (snd <$> _get_translated_fields_names example_settings "title").
Proof.
  destruct (generated_names_distinct example_settings "title") as (Hnd & _ & _);
    [by_evaluation | exact Hnd].
Defined.

(** ** [TranslatableAdmin.translated_for_model] *)

Lemma for_each_bind {A B S : Type} (body : B → S → Result S) (g : A → list B) xs s :
  for_each (λ x, for_each body (g x)) xs s = for_each body (xs ≫= g) s.
Proof.
  revert s. induction xs as [|x xs IH]; intros s; simpl; [done|].
  rewrite for_each_app. destruct (for_each body (g x) s); [apply IH | done].
Qed.

Section TranslatedForModel.

Variable cfg : Settings.

Lemma translated_for_model_fields_unfold cls_fields model :
  translated_for_model_fields cfg cls_fields model
  = for_each (replace_listed cfg) (translated_names model) cls_fields.
Proof.
  unfold translated_for_model_fields, translated_names.
  by rewrite (for_each_bind (replace_listed cfg) get_translated_fields).
Qed.

Lemma bind_expand_ext (fields : list string) rep rep' :
  (∀ x, x ∈ fields → (x ∈ rep ↔ x ∈ rep')) →
  fields ≫= expand_field cfg rep = fields ≫= expand_field cfg rep'.
Proof.
  induction fields as [|x fields IH]; intros Hext; [done|].
  rewrite !bind_cons. f_equal.
  - unfold expand_field. destruct (Hext x) as [H1 H2]; [left|].
    repeat case_decide; tauto.
  - apply IH. intros y Hy. apply Hext. by right.
Qed.

Lemma bind_expand_nil (fields : list string) : fields ≫= expand_field cfg [] = fields.
Proof.
  induction fields as [|x fields IH]; [done|].
  rewrite bind_cons, IH. unfold expand_field.
  rewrite decide_False; [done|]. by intros ?%elem_of_nil.
Qed.

Lemma elem_of_bind_expand (fields : list string) rep y :
  y ∈ fields ≫= expand_field cfg rep ↔
  (y ∈ fields ∧ y ∉ rep)
  ∨ ∃ x c, x ∈ fields ∧ x ∈ rep ∧ c ∈ _get_available_language_codes cfg
           ∧ y = format_name x c.
Proof.
  rewrite list_elem_of_bind. unfold expand_field. split.
  - intros (x & Hy & Hx). case_decide.
    + apply list_elem_of_fmap in Hy as (c & -> & Hc). right. by exists x, c.
    + apply list_elem_of_singleton in Hy as ->. by left.
  - intros [[Hy Hnd]|(x & c & Hx & Hd & Hc & ->)].
    + exists y. rewrite decide_False by done. split; [by apply list_elem_of_singleton | done].
    + exists x. rewrite decide_True by done. split; [|done].
      apply list_elem_of_fmap. by exists c.
Qed.

Section Replacement.

Variable model : Model.
Variable fields : list string.
Hypothesis fields_NoDup : NoDup fields.
Hypothesis generated_fresh :
  ∀ f_name c, f_name ∈ translated_names model →
    c ∈ _get_available_language_codes cfg →
    format_name f_name c ∉ translated_names model.

Lemma replace_listed_step rep f_name :
  f_name ∈ translated_names model →
  (∀ x, x ∈ rep → x ∈ translated_names model) →
  replace_listed cfg f_name (Some (fields ≫= expand_field cfg rep))
  = Ok (Some (fields ≫= expand_field cfg (f_name :: rep))).
Proof.
  intros Hf Hdone. unfold replace_listed. case_bool_decide as Hin.
  - apply elem_of_bind_expand in Hin as [[Hin Hnd]|(x & c & Hx & Hd & Hc & Heq)].
    2:{ exfalso. apply (generated_fresh x c); [by apply Hdone | done | by rewrite <- Heq]. }
    apply list_elem_of_split in Hin as (pre & post & Hsplit).
    assert (Hnd' : NoDup (pre ++ f_name :: post)) by (by rewrite <- Hsplit).
    apply NoDup_app in Hnd' as (_ & Hpre & Hpost%NoDup_cons).
    destruct Hpost as [Hpost _].
    assert (Hfpre : f_name ∉ pre).
    { intros Hp. apply (Hpre _ Hp). left. }
    rewrite Hsplit, !bind_app, !bind_cons.
    assert (Hother : ∀ l, f_name ∉ l → (∀ x, x ∈ l → x ∈ fields) →
              l ≫= expand_field cfg (f_name :: rep) = l ≫= expand_field cfg rep).
    { intros l Hl _. apply bind_expand_ext. intros x Hx. rewrite elem_of_cons.
      split; [|by right]. intros [->|?]; done. }
    rewrite !Hother; [|done|by intros; subst; rewrite elem_of_app; right; right
                      |done|by intros; subst; rewrite elem_of_app; left].
    assert (E1 : expand_field cfg rep f_name = [f_name])
      by (unfold expand_field; by rewrite decide_False).
    assert (E2 : expand_field cfg (f_name :: rep) f_name
                 = format_name f_name <$> _get_available_language_codes cfg)
      by (unfold expand_field; rewrite decide_True; [done | left]).
    rewrite E1, E2. simpl.
    rewrite _replace_field_first.
    + simpl. by rewrite generated_names.
    + intros [[? _]|(x & c & _ & Hd & Hc & Heq)]%elem_of_bind_expand; [done|].
      apply (generated_fresh x c); [by apply Hdone | done | by rewrite <- Heq].
  - f_equal. f_equal. apply bind_expand_ext. intros x Hx. rewrite elem_of_cons.
    split; [by right|]. intros [->|?]; [|done].
    destruct (decide (f_name ∈ rep)); [done|].
    exfalso. apply Hin. apply elem_of_bind_expand. by left.
Qed.

Lemma replace_listed_all todo rep :
  (∀ x, x ∈ todo → x ∈ translated_names model) →
  (∀ x, x ∈ rep → x ∈ translated_names model) →
  for_each (replace_listed cfg) todo (Some (fields ≫= expand_field cfg rep))
  = Ok (Some (fields ≫= expand_field cfg (reverse todo ++ rep))).
Proof.
  revert rep. induction todo as [|f todo IH]; intros rep Htodo Hdone; [done|].
  cbn [for_each]. rewrite replace_listed_step; [|apply Htodo; left | done].
  rewrite IH.
  - by rewrite reverse_cons, <- app_assoc.
  - intros x Hx. apply Htodo. by right.
  - intros x [->|Hx]%elem_of_cons; [apply Htodo; left | by apply Hdone].
Qed.

End Replacement.

End TranslatedForModel.

(** X5.  For a field list without repetition, and when no generated name is
    itself a translated field name, [translated_for_model] replaces every
    listed translated field of the model by its per-language names, in place:
    the other entries keep their order. *)
Theorem translated_for_model_replaces_all cfg model fields :
  NoDup fields →
  (∀ f_name c, f_name ∈ translated_names model →
     c ∈ _get_available_language_codes cfg →
     format_name f_name c ∉ translated_names model) →
  translated_for_model_fields cfg (Some fields) model
  = Ok (Some (fields ≫= expand_field cfg (translated_names model))).
Proof.
  intros Hnd Hfresh. rewrite translated_for_model_fields_unfold.
  rewrite <- (bind_expand_nil cfg fields) at 1.
  rewrite (replace_listed_all cfg model fields Hnd Hfresh);
    [|done|by intros x ?%elem_of_nil].
  f_equal. f_equal. apply bind_expand_ext. intros x _.
  by rewrite app_nil_r, elem_of_reverse.
Qed.

Lemma example_generated_fresh f_name c :
  f_name ∈ translated_names example_model →
  c ∈ _get_available_language_codes example_settings →
  format_name f_name c ∉ translated_names example_model.
Proof.
  change (f_name ∈ ["title"; "slug"] → c ∈ ["nl"; "de"; "en"] →
          format_name f_name c ∉ ["title"; "slug"]).
  intros Hf Hc.
  repeat (apply elem_of_cons in Hf as [->|Hf]); [| |by apply elem_of_nil in Hf];
  repeat (apply elem_of_cons in Hc as [->|Hc]); try (by apply elem_of_nil in Hc);
  intros Hin; repeat (apply elem_of_cons in Hin as [Hin|Hin]; [discriminate Hin|]);
  by apply elem_of_nil in Hin.
Qed.

Lemma translated_for_model_replaces_all_witness :
  translated_for_model_fields example_settings (Some ["title"; "slug"; "published"])
    example_model
  = Ok (Some ["title_nl"; "title_de"; "title_en";
              "slug_nl"; "slug_de"; "slug_en"; "published"]).
Proof.
  rewrite (translated_for_model_replaces_all example_settings example_model
             ["title"; "slug"; "published"]);
    [reflexivity | by_evaluation | exact example_generated_fresh].
Defined.

(** X6.  With [cls.fields = None], [translated_for_model] raises [TypeError]
    as soon as the model has a translated field (the test
    [f_name not in fields] fails on [None]); for a model without translated
    fields it returns [None]. *)
Theorem translated_for_model_without_fields cfg model :
  translated_for_model_fields cfg None model
  = if decide (translated_names model = []) then Ok None else Raise TypeError.
Proof.
  rewrite translated_for_model_fields_unfold.
  destruct (translated_names model) as [|f rest]; [done|].
  by rewrite decide_False.
Qed.

(** X7.  For a given field list [translated_for_model] never raises: the
    lookup in [_replace_field] is guarded by the membership test.  Every
    entry of the result is an entry of the list or a generated per-language
    name of a translated field; every entry that is not a translated field
    is still there; and a list that names no translated field comes back
    unchanged. *)
Theorem translated_for_model_returns cfg model fields :
  ∃ result,
    translated_for_model_fields cfg (Some fields) model = Ok (Some result)
    ∧ (∀ x, x ∈ result →
         x ∈ fields
         ∨ ∃ f_name c, f_name ∈ translated_names model
                       ∧ c ∈ _get_available_language_codes cfg
                       ∧ x = format_name f_name c)
    ∧ (∀ x, x ∈ fields → x ∉ translated_names model → x ∈ result)
    ∧ ((∀ f_name, f_name ∈ translated_names model → f_name ∉ fields) →
       result = fields).
Proof.
  rewrite translated_for_model_fields_unfold.
  pose (P := λ (seen : list string) (s : option (list string)),
    ∃ fs, s = Some fs
      ∧ (∀ x, x ∈ fs →
           x ∈ fields
           ∨ ∃ f_name c, f_name ∈ translated_names model
                         ∧ c ∈ _get_available_language_codes cfg
                         ∧ x = format_name f_name c)
      ∧ (∀ x, x ∈ fields → x ∉ translated_names model → x ∈ fs)
      ∧ ((∀ f_name, f_name ∈ seen → f_name ∉ fields) → fs = fields)).
  destruct (for_each_progress P (replace_listed cfg) (translated_names model)
              [] (Some fields)) as (s & Hrun & fs & -> & HA & HB & HC).
  - exists fields. split_and!; [done | by left | done | done].
  - intros seen f t Hf (fs & -> & HA & HB & HC). unfold replace_listed.
    case_bool_decide as Hin.
    + apply list_elem_of_split_l in Hin as (pre & post & -> & Hpre).
      rewrite _replace_field_first by done. simpl. eexists. split; [done|].
      exists (pre ++ (snd <$> _get_translated_fields_names cfg f) ++ post).
      split_and!; [done| | |].
      * intros x. rewrite !elem_of_app. intros [Hx|[Hx|Hx]].
        -- apply HA. rewrite elem_of_app. by left.
        -- right. rewrite generated_names in Hx.
           apply list_elem_of_fmap in Hx as (c & -> & Hc). by exists f, c.
        -- apply HA. rewrite elem_of_app. right. by right.
      * intros x Hx HxT. specialize (HB x Hx HxT).
        rewrite !elem_of_app in *. rewrite elem_of_cons in HB.
        destruct HB as [?|[->|?]]; [by left | done | by right; right].
      * intros Hnone. exfalso. apply (Hnone f); [rewrite elem_of_app; right; left|].
        rewrite <- HC.
        -- rewrite elem_of_app. right. left.
        -- intros g Hg. apply Hnone. rewrite elem_of_app. by left.
    + eexists. split; [done|]. exists fs. split_and!; [done..|].
      intros Hnone. apply HC. intros g Hg. apply Hnone. rewrite elem_of_app. by left.
  - exists fs. simpl in *. split_and!; [done..|]. exact HC.
Qed.

(** ** Class construction: failures and frame *)

Lemma for_each_Raise_inv {A S : Type} (P : S → Prop) (body : A → S → Result S) xs s e :
  P s →
  (∀ x t t', x ∈ xs → P t → body x t = Ok t' → P t') →
  for_each body xs s = Raise e →
  ∃ x t, x ∈ xs ∧ P t ∧ body x t = Raise e.
Proof.
  revert s. induction xs as [|x xs IH]; intros s Hs Hstep; simpl; [done|].
  destruct (body x s) as [t|e'] eqn:Hb.
  - intros Hrun. destruct (IH t) as (y & u & Hy & Hu & Hraise); [| |done|].
    + eapply Hstep; [left | done | done].
    + intros y u u' Hy. apply Hstep. by right.
    + exists y, u. split; [by right | done].
  - intros [= ->]. exists x, s. split; [left | done].
Qed.

Lemma for_each_unchanged {A S : Type} (body : A → S → Result S) xs s :
  (∀ x, x ∈ xs → body x s = Ok s) → for_each body xs s = Ok s.
Proof.
  induction xs as [|x xs IH]; intros Hbody; simpl; [done|].
  rewrite Hbody by left. apply IH. intros y Hy. apply Hbody. by right.
Qed.

Lemma for_each_raises_unchanged {A S : Type} (body : A → S → Result S) xs s e x :
  (∀ y, y ∈ xs → body y s = Ok s ∨ body y s = Raise e) →
  x ∈ xs → body x s = Raise e →
  for_each body xs s = Raise e.
Proof.
  induction xs as [|y xs IH]; intros Hbody Hx Hraise; [by apply elem_of_nil in Hx|].
  simpl. destruct (Hbody y) as [E|E]; [left | | by rewrite E]. rewrite E.
  apply elem_of_cons in Hx as [->|Hx]; [congruence|].
  apply IH; [|done..]. intros z Hz. apply Hbody. by right.
Qed.

Lemma get_field_Ok tm f_name :
  f_name ∈ get_translated_fields tm → ∃ fld, get_field tm f_name = Ok fld.
Proof.
  unfold get_translated_fields, get_field. intros (fld & -> & Hin)%list_elem_of_fmap.
  induction (tm_fields tm) as [|g rest IH]; [by apply elem_of_nil in Hin|].
  simpl. case_bool_decide; [by eexists|].
  apply IH. apply elem_of_cons in Hin as [->|?]; done.
Qed.

Lemma elem_of_placeholders (a : gmap string AttrValue) f_name :
  f_name ∈ (fst <$> filter (λ kv, is_placeholder (snd kv) = true) (map_to_list a))
  ↔ ∃ kwargs, a !! f_name = Some (APlaceholder kwargs).
Proof.
  rewrite list_elem_of_fmap. split.
  - intros ([k v] & -> & [Hp Hin]%list_elem_of_filter). simpl in *.
    apply elem_of_map_to_list in Hin. destruct v; try done. by eexists.
  - intros [kw Hkw]. exists (f_name, APlaceholder kw). split; [done|].
    apply list_elem_of_filter. split; [done|]. by apply elem_of_map_to_list.
Qed.

Section Failures.

Variable cfg : Settings.
Variable _get_model_form_field :
  TranslationsModel → string → option AttrValue → Kwargs → FormField.

Lemma Meta_is_class_of_model st :
  is_Some (o_model (form_new_meta st)) → Meta_is_class st.
Proof.
  unfold form_new_meta, Meta_is_class.
  destruct (attrs st !! "Meta") as [[| |m|]|]; simpl; intros [x Hx]; try done.
  - right. by exists m.
  - by left.
Qed.

Lemma set_form_new_meta_fields_class value st :
  Meta_is_class st →
  ∃ st', set_form_new_meta_fields value st = Ok st' ∧ Meta_is_class st'.
Proof.
  unfold set_form_new_meta_fields, Meta_is_class. intros [Hn|[m Hm]].
  - rewrite Hn. eexists. split; [done|]. by left.
  - rewrite Hm. eexists. split; [done|]. right. simpl.
    rewrite lookup_insert_eq. by eexists.
Qed.

Lemma handle_field_class bases tm base_fields translated_fields loc f_name st st' :
  Meta_is_class st →
  handle_field cfg _get_model_form_field bases tm base_fields translated_fields
    loc f_name st = Ok st' →
  Meta_is_class st'.
Proof.
  intros Hcls. unfold handle_field.
  case_bool_decide; [done|].
  destruct (_ && _); [|by intros [= <-]].
  destruct (get_field tm f_name) as [fld|]; simpl; [|done].
  destruct (editable fld); simpl; [|by intros [= <-]].
  assert (Hstore : ∀ s cb kw, Meta_is_class s →
            Meta_is_class (set_attrs (store_translated_fields cfg _get_model_form_field
                             tm f_name cb kw (_get_translated_fields_names cfg f_name)
                             (attrs s)) s)).
  { intros s cb kw Hs. unfold Meta_is_class. simpl.
    by rewrite store_translated_fields_Meta. }
  destruct (l_fields loc) as [fields|]; simpl.
  - destruct (zip_second _) as [replacement|]; simpl; [|done].
    destruct (_replace_field _ _ _) as [new_fields|]; simpl; [|done].
    destruct (set_form_new_meta_fields_class (PySeq new_fields) st Hcls)
      as (st1 & -> & Hst1). simpl. intros [= <-]. by apply Hstore.
  - intros [= <-]. by apply Hstore.
Qed.

(** The exceptions of one iteration: a placeholder, or no language at all. *)
Lemma handle_field_Raise_inv bases tm base_fields translated_fields loc f_name st e :
  Meta_is_class st →
  f_name ∈ get_translated_fields tm →
  handle_field cfg _get_model_form_field bases tm base_fields translated_fields
    loc f_name st = Raise e →
  (e = TypeError ∧ f_name ∈ translated_fields)
  ∨ (e = IndexError ∧ _get_available_language_codes cfg = []).
Proof.
  intros Hcls Hf. unfold handle_field.
  case_bool_decide as Hph; [intros [= <-]; by left|].
  destruct (_ && _) eqn:Hcond; [|done].
  destruct (get_field_Ok tm f_name Hf) as [fld ->]. simpl.
  destruct (editable fld); simpl; [|done].
  destruct (l_fields loc) as [fields|] eqn:Hfields; simpl; [|done].
  destruct (zip_second _) as [replacement|] eqn:Hzip; simpl.
  - assert (Hin : f_name ∈ fields).
    { rewrite !andb_true_iff in Hcond. destruct Hcond as [[[_ Hin] _] _].
      apply bool_decide_eq_true in Hin. simpl in Hin. by destruct Hin. }
    destruct fields as [|f0 fields']; [by apply elem_of_nil in Hin|].
    apply list_elem_of_split_l in Hin as (pre & post & -> & Hpre).
    rewrite _replace_field_first by done. simpl.
    destruct (set_form_new_meta_fields_class (PySeq (pre ++ replacement ++ post)) st Hcls)
      as (st1 & -> & _). done.
  - intros [= <-]. right. split.
    + unfold zip_second in Hzip. destruct (_get_translated_fields_names cfg f_name); congruence.
    + unfold zip_second, _get_translated_fields_names in Hzip.
      destruct (_get_available_language_codes cfg); [done|discriminate Hzip].
Qed.

Lemma _handle_translation_model_class bases tm base_fields translated_fields st st' :
  Meta_is_class st →
  _handle_translation_model cfg _get_model_form_field bases tm base_fields
    translated_fields st = Ok st' →
  Meta_is_class st'.
Proof.
  intros Hcls. unfold _handle_translation_model.
  apply for_each_invariant; [done|].
  intros f t t' _ Ht. by apply handle_field_class.
Qed.

Lemma _handle_translation_model_Raise_inv bases tm base_fields translated_fields st e :
  Meta_is_class st →
  _handle_translation_model cfg _get_model_form_field bases tm base_fields
    translated_fields st = Raise e →
  (e = TypeError ∧ ∃ f_name, f_name ∈ get_translated_fields tm
                             ∧ f_name ∈ translated_fields)
  ∨ (e = IndexError ∧ _get_available_language_codes cfg = []).
Proof.
  intros Hcls Hrun. unfold _handle_translation_model in Hrun.
  apply (for_each_Raise_inv Meta_is_class) in Hrun as (f & t & Hf & Ht & Hraise);
    [|done|].
  - apply handle_field_Raise_inv in Hraise as [[-> Hph]|?]; [|by right|done..].
    left. split; [done|]. by exists f.
  - intros f t t' _ Ht. by apply handle_field_class.
Qed.

End Failures.

(** X8.  The failures of class construction that its own statements cause.
    For a form whose [Meta.model], when it has one, is a translatable model
    (it has [_parler_meta]), and a [_get_model_form_field] that returns a form
    field with a label (both come from code outside [singleformadmin.py] and
    are total here by their types), class construction raises in three ways
    only: [AttributeError] when the [Meta] at hand has no [model] attribute,
    [TypeError] when a [TranslatedField] placeholder is declared under the
    name of a translated field of the model, [IndexError] when no language is
    configured for the site.  In particular the [fields.index] of
    [_replace_field] never fails here: the name is always in the list. *)
Theorem class_construction_failures cfg gmff bases a e :
  TranslatableModelFormMetaclass_new cfg gmff bases a = Raise e →
  ∃ fm, bases_meta bases = Some fm ∧
    let new_meta := form_new_meta {| attrs := a; form_meta := fm |} in
    (e = AttributeError ∧ o_model new_meta = None)
    ∨ (e = TypeError
       ∧ ∃ model tm f_name kwargs,
           o_model new_meta = Some (Some model) ∧ tm ∈ get_all_models model
           ∧ f_name ∈ get_translated_fields tm
           ∧ a !! f_name = Some (APlaceholder kwargs))
    ∨ (e = IndexError ∧ _get_available_language_codes cfg = []).
Proof.
  unfold TranslatableModelFormMetaclass_new.
  destruct (bases_meta bases) as [fm|]; [|done].
  intros Hrun. exists fm. split; [done|]. simpl.
  destruct (o_model _) as [[model|]|] eqn:Hmodel; [| done | intros; left; by injection Hrun as <-].
  destruct (for_each _ _ _) as [st'|e'] eqn:Hloop; simpl in Hrun; [done|].
  injection Hrun as ->. right.
  apply (for_each_Raise_inv Meta_is_class) in Hloop as (tm & t & Htm & Ht & Hraise).
  - apply _handle_translation_model_Raise_inv in Hraise
      as [[-> (f & Hf & Hph)]|?]; [|by right|done].
    left. split; [done|]. apply elem_of_placeholders in Hph as [kw Hkw].
    by exists model, tm, f, kw.
  - apply Meta_is_class_of_model. by rewrite Hmodel.
  - intros tm t t' _ Ht. by apply _handle_translation_model_class.
Qed.

Lemma class_construction_failures_witness :
  ∃ f_name kwargs, example_attrs_placeholder !! f_name = Some (APlaceholder kwargs).
Proof.
  assert (Hrun : TranslatableModelFormMetaclass_new example_settings
                   example_get_model_form_field example_bases example_attrs_placeholder
                 = Raise TypeError) by (vm_compute; reflexivity).
  destruct (class_construction_failures _ _ _ _ _ Hrun)
    as (fm & _ & [[He _]|[(_ & model & tm & f & kw & _ & _ & _ & Hph)|[He _]]]).
  - discriminate He.
  - by exists f, kw.
  - discriminate He.
Defined.

(** X9.  Class construction never removes an attribute of the class, and it
    leaves every binding as it is except ["Meta"] and the per-language names
    of the translated fields of the form's model: a declared method such as
    [clean_title_en] stays, although its name ends in a language code. *)
Theorem class_construction_keeps_declared cfg gmff bases a a' fm' :
  TranslatableModelFormMetaclass_new cfg gmff bases a = Ok (a', fm') →
  (∀ k, is_Some (a !! k) → is_Some (a' !! k))
  ∧ (∀ k, k ≠ "Meta" → ¬ generated_name cfg bases a k → a' !! k = a !! k).
Proof.
  intros Hnew.
  destruct (TranslatableModelFormMetaclass_new_changes cfg gmff bases a a' fm' Hnew)
    as (tms & Hch & Hmodel).
  split.
  - intros k Hk. destruct (Hch k) as [->|[(_ & m & m' & _ & ->)|(v & -> & _)]]; by eauto.
  - intros k Hk Hgen. destruct (Hch k) as [?|[[? _]|(v & _ & Hg)]]; [done..|].
    destruct Hmodel as [->|(fm & model & Hfm & Hm & ->)]; [done|].
    destruct Hg as (tm & f & c & cb & kw & Htm & Hf & Hc & -> & _).
    destruct Hgen. by exists fm, model, tm, f, c.
Qed.

Lemma class_construction_keeps_declared_witness :
  ∃ a' fm',
    TranslatableModelFormMetaclass_new example_settings example_get_model_form_field
      example_bases (<["clean_title_en" := AOther "def clean_title_en(self)"]> example_attrs)
    = Ok (a', fm')
    ∧ a' !! "clean_title_en" = Some (AOther "def clean_title_en(self)").
Proof.
  pose (a := <["clean_title_en" := AOther "def clean_title_en(self)"]> example_attrs).
  pose (r := match TranslatableModelFormMetaclass_new example_settings
                     example_get_model_form_field example_bases a with
             | Ok p => p | Raise _ => (∅, None) end).
  assert (Hr : TranslatableModelFormMetaclass_new example_settings
                 example_get_model_form_field example_bases a = Ok (r.1, r.2))
    by (vm_compute; reflexivity).
  destruct (class_construction_keeps_declared _ _ _ _ _ _ Hr) as [_ Hframe].
  exists r.1, r.2. split; [exact Hr|].
  rewrite (Hframe "clean_title_en"); [reflexivity | discriminate |].
  intros (fm & model & tm & f & c & Hfm & Hm & Htm & Hf & _ & Heq).
  injection Hfm as <-.
  change (Some (Some example_model) = Some (Some model)) in Hm. injection Hm as <-.
  apply list_elem_of_singleton in Htm as ->.
  change (f ∈ ["title"; "slug"]) in Hf.
  apply elem_of_cons in Hf as [->|Hf]; [by inversion Heq|].
  apply list_elem_of_singleton in Hf as ->. by inversion Heq.
Defined.

Section Assignment.

Variable cfg : Settings.
Variable _get_model_form_field :
  TranslationsModel → string → option AttrValue → Kwargs → FormField.

Lemma only_fields_reassigned_refl st : only_fields_reassigned st st.
Proof.
  unfold only_fields_reassigned.
  destruct (attrs st !! "Meta") as [[| |m|]|] eqn:Hm; try done.
  split; [done|]. by exists m.
Qed.

Lemma only_fields_reassigned_trans a b c :
  only_fields_reassigned a b → only_fields_reassigned b c → only_fields_reassigned a c.
Proof.
  unfold only_fields_reassigned.
  destruct (attrs a !! "Meta") as [[| |m|]|] eqn:Hm; try done.
  - intros (Hfm & m' & -> & H1 & H2 & H3) (Hfm' & m'' & Hm'' & H4 & H5 & H6).
    split; [congruence|]. exists m''. split_and!; congruence.
  - intros (-> & H1 & H2 & H3) (Hn & H4 & H5 & H6). split_and!; congruence.
Qed.

Lemma set_form_new_meta_fields_only value st st' :
  set_form_new_meta_fields value st = Ok st' → only_fields_reassigned st st'.
Proof.
  unfold set_form_new_meta_fields, only_fields_reassigned.
  destruct (attrs st !! "Meta") as [[| |m|]|] eqn:Hm; try done; intros [= <-]; simpl.
  - split; [done|]. eexists. by rewrite lookup_insert_eq.
  - done.
Qed.

Lemma store_only tm f_name cb kw st :
  only_fields_reassigned st
    (set_attrs (store_translated_fields cfg _get_model_form_field tm f_name cb kw
                  (_get_translated_fields_names cfg f_name) (attrs st)) st).
Proof.
  unfold only_fields_reassigned. simpl.
  rewrite store_translated_fields_Meta by done.
  destruct (attrs st !! "Meta") as [[| |m|]|] eqn:Hm; try done.
  split; [done|]. by exists m.
Qed.

Lemma handle_field_only bases tm base_fields translated_fields loc f_name st st' :
  handle_field cfg _get_model_form_field bases tm base_fields translated_fields
    loc f_name st = Ok st' →
  only_fields_reassigned st st'.
Proof.
  unfold handle_field.
  case_bool_decide; [done|].
  destruct (_ && _); [|intros [= <-]; apply only_fields_reassigned_refl].
  destruct (get_field tm f_name) as [fld|]; simpl; [|done].
  destruct (editable fld); simpl; [|intros [= <-]; apply only_fields_reassigned_refl].
  destruct (l_fields loc) as [fields|]; simpl.
  - destruct (zip_second _) as [replacement|]; simpl; [|done].
    destruct (_replace_field _ _ _) as [new_fields|]; simpl; [|done].
    destruct (set_form_new_meta_fields _ st) as [st1|] eqn:Hset; simpl; [|done].
    intros [= <-]. eapply only_fields_reassigned_trans;
      [by eapply set_form_new_meta_fields_only | apply store_only].
  - intros [= <-]. apply store_only.
Qed.

Lemma _handle_translation_model_only bases tm base_fields translated_fields st st' :
  _handle_translation_model cfg _get_model_form_field bases tm base_fields
    translated_fields st = Ok st' →
  only_fields_reassigned st st'.
Proof.
  unfold _handle_translation_model.
  apply (for_each_preorder only_fields_reassigned
           only_fields_reassigned_refl only_fields_reassigned_trans).
  intros f t t' _. apply handle_field_only.
Qed.

End Assignment.

(** X10.  Class construction reassigns nothing but [fields], and on one
    object only: with a [Meta] class in the class body the inherited options
    object is handed on untouched and [Meta] keeps its [model], [exclude] and
    [widgets]; without one, the assignment goes to the inherited options
    object of the base class, which keeps its [model], [exclude] and
    [widgets]. *)
Theorem class_construction_reassigns_fields_only cfg gmff bases a a' fm' fm :
  bases_meta bases = Some fm →
  TranslatableModelFormMetaclass_new cfg gmff bases a = Ok (a', fm') →
  match a !! "Meta" with
  | Some (AMeta m) =>
      fm' = Some fm
      ∧ ∃ m', a' !! "Meta" = Some (AMeta m')
              ∧ o_model m' = o_model m ∧ o_exclude m' = o_exclude m
              ∧ o_widgets m' = o_widgets m
  | Some _ => False
  | None =>
      a' !! "Meta" = None
      ∧ ∃ fm1, fm' = Some fm1
               ∧ opt_model fm1 = opt_model fm ∧ opt_exclude fm1 = opt_exclude fm
               ∧ opt_widgets fm1 = opt_widgets fm
  end.
Proof.
  intros Hfm. unfold TranslatableModelFormMetaclass_new. rewrite Hfm.
  set (st := {| attrs := a; form_meta := fm |}).
  assert (Hall : ∀ st', only_fields_reassigned st st' →
    is_Some (o_model (form_new_meta st)) →
    match a !! "Meta" with
    | Some (AMeta m) =>
        Some (form_meta st') = Some fm
        ∧ ∃ m', attrs st' !! "Meta" = Some (AMeta m')
                ∧ o_model m' = o_model m ∧ o_exclude m' = o_exclude m
                ∧ o_widgets m' = o_widgets m
    | Some _ => False
    | None =>
        attrs st' !! "Meta" = None
        ∧ ∃ fm1, Some (form_meta st') = Some fm1
                 ∧ opt_model fm1 = opt_model fm ∧ opt_exclude fm1 = opt_exclude fm
                 ∧ opt_widgets fm1 = opt_widgets fm
    end).
  { intros st'. unfold only_fields_reassigned, form_new_meta. simpl.
    destruct (a !! "Meta") as [[| |m|]|]; simpl; try (by intros _ [? ?]).
    - intros (-> & Hm') _. done.
    - intros (Hn & H1 & H2 & H3) _. split; [done|]. by eexists. }
  destruct (o_model (form_new_meta st)) as [[model|]|] eqn:Hmodel; [| |done].
  - destruct (for_each _ _ _) as [st'|] eqn:Hloop; simpl; [|done].
    intros [= <- <-]. apply Hall; [|by eexists].
    revert Hloop.
    apply (for_each_preorder only_fields_reassigned
             only_fields_reassigned_refl only_fields_reassigned_trans).
    intros tm t t' _. apply _handle_translation_model_only.
  - intros [= <- <-]. apply (Hall st); [apply only_fields_reassigned_refl | by eexists].
Qed.

Lemma class_construction_reassigns_fields_only_witness :
  ∃ a' fm1,
    TranslatableModelFormMetaclass_new example_settings example_get_model_form_field
      example_subclass_bases ∅ = Ok (a', Some fm1)
    ∧ a' !! "Meta" = None
    ∧ opt_model fm1 = Some example_model
    ∧ opt_fields fm1
      = PySeq ["title_nl"; "title_de"; "title_en"; "slug_nl"; "slug_de"; "slug_en";
               "published"].
Proof.
  pose (r := match TranslatableModelFormMetaclass_new example_settings
                     example_get_model_form_field example_subclass_bases ∅ with
             | Ok p => p | Raise _ => (∅, None) end).
  assert (Hr : TranslatableModelFormMetaclass_new example_settings
                 example_get_model_form_field example_subclass_bases ∅ = Ok (r.1, r.2))
    by (vm_compute; reflexivity).
  pose proof (class_construction_reassigns_fields_only example_settings
                example_get_model_form_field example_subclass_bases ∅ r.1 r.2 _
                eq_refl Hr) as Hframe.
  rewrite lookup_empty in Hframe.
  destruct Hframe as (Hmeta & fm1 & Hfm1 & Hmodel & _).
  exists r.1, fm1. rewrite <- Hfm1. split; [exact Hr|]. split; [exact Hmeta|].
  split; [exact Hmodel|].
  assert (Hf : r.2 = Some fm1) by exact Hfm1.
  vm_compute in Hf. injection Hf as <-. reflexivity.
Defined.

(** ** Class construction: what is replaced, injected or skipped *)

Section Checks.

Variable cfg : Settings.
Variable _get_model_form_field :
  TranslationsModel → string → option AttrValue → Kwargs → FormField.

Lemma handle_field_skips bases tm base_fields translated_fields loc f_name st :
  f_name ∈ get_translated_fields tm →
  f_name ∉ translated_fields →
  ¬ passes_checks base_fields (l_fields loc) (l_exclude loc) (attrs st) tm f_name →
  handle_field cfg _get_model_form_field bases tm base_fields translated_fields
    loc f_name st = Ok st.
Proof.
  intros Hf Hph Hno. unfold handle_field.
  rewrite bool_decide_eq_false_2 by done.
  destruct (_ && _) eqn:Hcond; [|done].
  rewrite !andb_true_iff, !bool_decide_eq_true in Hcond.
  destruct Hcond as [[[H1 H2] H3] H4].
  destruct (get_field_Ok tm f_name Hf) as [fld Hfld]. rewrite Hfld. simpl.
  destruct (editable fld) eqn:Hed; simpl; [|done].
  exfalso. apply Hno. split_and!; [done..|]. by exists fld.
Qed.

Lemma set_attrs_same st : set_attrs (attrs st) st = st.
Proof. by destruct st. Qed.

(** Without any language nothing is stored: a field that passes the checks
    fails on the empty [zip()] when there is a field list, and is a no-op
    when there is none. *)
Lemma handle_field_no_languages bases tm base_fields translated_fields loc f_name st :
  _get_available_language_codes cfg = [] →
  f_name ∈ get_translated_fields tm →
  f_name ∉ translated_fields →
  handle_field cfg _get_model_form_field bases tm base_fields translated_fields
    loc f_name st
  = match l_fields loc with
    | Some _ =>
        if bool_decide (base_fields !! f_name = None)
           && bool_decide (l_fields loc = None ∨ f_name ∈ default [] (l_fields loc))
           && bool_decide (f_name ∉ l_exclude loc)
           && bool_decide (attrs st !! f_name = None)
           && match get_field tm f_name with Ok fld => editable fld | Raise _ => false end
        then Raise IndexError else Ok st
    | None => Ok st
    end.
Proof.
  intros Hcodes Hf Hph. unfold handle_field.
  rewrite bool_decide_eq_false_2 by done.
  destruct (get_field_Ok tm f_name Hf) as [fld Hfld]. rewrite Hfld.
  unfold _get_translated_fields_names. rewrite Hcodes. simpl.
  destruct (l_fields loc) as [fields|]; simpl.
  - destruct (_ && _); simpl; [|done]. by destruct (editable fld).
  - destruct (_ && _); simpl; [|done]. destruct (editable fld); simpl; [|done].
    by rewrite set_attrs_same.
Qed.

End Checks.

(** X11.  A form whose translated fields all fail the checks of the loop
    (listed in [Meta.exclude], absent from an explicit [Meta.fields], already
    among the base fields or the class attributes, or not editable), and
    which declares no placeholder for them, is constructed from its class
    dictionary as it stands. *)
Theorem class_construction_skips cfg gmff bases a fm model :
  bases_meta bases = Some fm →
  let st := {| attrs := a; form_meta := fm |} in
  o_model (form_new_meta st) = Some (Some model) →
  (∀ tm f_name,
     tm ∈ get_all_models model → f_name ∈ get_translated_fields tm →
     (∀ kwargs, a !! f_name ≠ Some (APlaceholder kwargs))
     ∧ ¬ passes_checks (default ∅ (bases_base_fields bases))
           (l_fields (read_locals st)) (l_exclude (read_locals st)) a tm f_name) →
  TranslatableModelFormMetaclass_new cfg gmff bases a = Ok (a, Some fm).
Proof.
  intros Hfm st Hmodel Hskip. unfold TranslatableModelFormMetaclass_new.
  rewrite Hfm. fold st. rewrite Hmodel.
  rewrite for_each_unchanged; [done|].
  intros tm Htm. unfold _handle_translation_model.
  apply for_each_unchanged. intros f Hf.
  destruct (Hskip tm f Htm Hf) as [Hph Hno].
  apply handle_field_skips; [done| |done].
  intros [kw Hkw]%elem_of_placeholders. by apply (Hph kw).
Qed.

Lemma example_listed_skips tm f_name :
  tm ∈ get_all_models example_model → f_name ∈ get_translated_fields tm →
  (∀ kwargs, example_attrs_listed !! f_name ≠ Some (APlaceholder kwargs))
  ∧ ¬ passes_checks (default ∅ (bases_base_fields example_bases))
        (Some ["title_nl"; "title_en"; "published"]) [] example_attrs_listed tm f_name.
Proof.
  intros ->%list_elem_of_singleton Hf.
  change (f_name ∈ ["title"; "slug"]) in Hf.
  repeat (apply elem_of_cons in Hf as [->|Hf]); [| |by apply elem_of_nil in Hf].
  - split; [by intros kw|]. intros (_ & [?|Hin] & _); [done|].
    simpl in Hin. repeat (apply elem_of_cons in Hin as [?|Hin]; [done|]).
    by apply elem_of_nil in Hin.
  - split; [by intros kw|]. intros (_ & [?|Hin] & _); [done|].
    simpl in Hin. repeat (apply elem_of_cons in Hin as [?|Hin]; [done|]).
    by apply elem_of_nil in Hin.
Qed.

Lemma class_construction_skips_witness :
  TranslatableModelFormMetaclass_new example_settings example_get_model_form_field
    example_bases example_attrs_listed
  = Ok (example_attrs_listed,
        Some {| opt_model := None; opt_fields := PyNone;
                opt_exclude := None; opt_widgets := None |}).
Proof.
  exact (class_construction_skips example_settings example_get_model_form_field
           example_bases example_attrs_listed _ example_model eq_refl eq_refl
           example_listed_skips).
Defined.

(** X12.  For a model with one translations model and a form with a field
    list, class construction leaves [Meta.fields] as the list that was
    declared, or as that list with a single translated field replaced by its
    per-language names: replacements of other translated fields are not
    kept. *)
Theorem meta_fields_single_replacement cfg gmff bases a a' fm' fm model tm fields :
  bases_meta bases = Some fm →
  let st := {| attrs := a; form_meta := fm |} in
  o_model (form_new_meta st) = Some (Some model) →
  get_all_models model = [tm] →
  l_fields (read_locals st) = Some fields →
  TranslatableModelFormMetaclass_new cfg gmff bases a = Ok (a', Some fm') →
  let st' := {| attrs := a'; form_meta := fm' |} in
  o_fields (form_new_meta st') = o_fields (form_new_meta st)
  ∨ ∃ f_name pre post,
      f_name ∈ get_translated_fields tm
      ∧ fields = pre ++ (f_name :: post) ∧ (f_name ∉ pre)
      ∧ o_fields (form_new_meta st')
        = Some (PySeq (pre ++ (format_name f_name <$> _get_available_language_codes cfg)
                           ++ post)).
Proof.
  intros Hfm st Hmodel Htms Hfields. unfold TranslatableModelFormMetaclass_new.
  rewrite Hfm. fold st. rewrite Hmodel, Htms. cbn [for_each].
  destruct (_handle_translation_model _ _ _ _ _ _ st) as [st1|] eqn:Hrun; [|done].
  simpl. intros [= <- <-].
  replace {| attrs := attrs st1; form_meta := form_meta st1 |} with st1
    by (by destruct st1).
  by eapply _handle_translation_model_fields.
Qed.

Lemma meta_fields_single_replacement_witness :
  ∃ a' fm',
    TranslatableModelFormMetaclass_new example_settings example_get_model_form_field
      example_bases example_attrs = Ok (a', Some fm')
    ∧ (o_fields (form_new_meta {| attrs := a'; form_meta := fm' |})
       = Some (PySeq ["title"; "slug"; "published"])
       ∨ ∃ f_name pre post,
           f_name ∈ ["title"; "slug"]
           ∧ ["title"; "slug"; "published"] = pre ++ (f_name :: post) ∧ (f_name ∉ pre)
           ∧ o_fields (form_new_meta {| attrs := a'; form_meta := fm' |})
             = Some (PySeq (pre ++ (format_name f_name <$> ["nl"; "de"; "en"]) ++ post))).
Proof.
  pose (r := match example_class with
             | Ok (a', Some fm') => (a', fm')
             | _ => (∅, {| opt_model := None; opt_fields := PyNone;
                           opt_exclude := None; opt_widgets := None |})
             end).
  assert (Hr : example_class = Ok (r.1, Some r.2)) by (vm_compute; reflexivity).
  exists r.1, r.2. split; [exact Hr|].
  exact (meta_fields_single_replacement example_settings example_get_model_form_field
           example_bases example_attrs r.1 r.2 _ example_model example_translations_model
           ["title"; "slug"; "published"] eq_refl eq_refl eq_refl eq_refl Hr).
Defined.

(** X13.  For a model with one translations model: a translated field that
    passes the checks of the loop, and whose name is not itself a generated
    name, gets a form field under each of its per-language names when class
    construction returns. *)
Theorem class_construction_injects cfg gmff bases a a' fm' fm model tm f_name c :
  bases_meta bases = Some fm →
  let st := {| attrs := a; form_meta := fm |} in
  o_model (form_new_meta st) = Some (Some model) →
  get_all_models model = [tm] →
  f_name ∈ get_translated_fields tm →
  passes_checks (default ∅ (bases_base_fields bases))
    (l_fields (read_locals st)) (l_exclude (read_locals st)) a tm f_name →
  (∀ g c', c' ∈ _get_available_language_codes cfg → f_name ≠ format_name g c') →
  c ∈ _get_available_language_codes cfg →
  TranslatableModelFormMetaclass_new cfg gmff bases a = Ok (a', fm') →
  ∃ formfield, a' !! format_name f_name c = Some (AField formfield).
Proof.
  intros Hfm st Hmodel Htms Hf (Hbase & Hfields & Hexcl & Hattr & fld & Hfld & Hed)
    Hfresh Hc Hnew.
  revert Hnew. unfold TranslatableModelFormMetaclass_new.
  rewrite Hfm. fold st. rewrite Hmodel, Htms. cbn [for_each].
  destruct (_handle_translation_model _ _ _ _ _ _ st) as [st1|] eqn:Hrun; [|done].
  simpl. intros [= <- <-].
  assert (Hnone : attrs st1 !! f_name = None).
  { destruct (decide (f_name = "Meta")) as [->|Hne].
    - pose proof (_handle_translation_model_only cfg gmff _ _ _ _ _ _ Hrun) as Honly.
      unfold only_fields_reassigned in Honly. simpl in Honly.
      rewrite Hattr in Honly. by destruct Honly.
    - destruct (_handle_translation_model_changes cfg gmff _ _ _ _ _ _ Hrun f_name)
        as [->|[[? _]|(v & _ & Hg)]]; [done..|].
      destruct Hg as (? & g & c' & ? & ? & _ & _ & Hc' & Heq & _).
      by destruct (Hfresh g c'). }
  destruct (_handle_translation_model_injects cfg gmff _ _ _ _ _ _ f_name fld c Hrun)
    as (v & Hv & Hg); try done.
  - intros [kw Hkw]%elem_of_placeholders. congruence.
  - destruct Hg as (? & ? & ? & ? & ? & _ & _ & _ & _ & ->). by eexists.
Qed.

Lemma example_title_passes :
  passes_checks (default ∅ (bases_base_fields example_bases))
    (Some ["title"; "slug"; "published"]) [] example_attrs example_translations_model
    "title".
Proof.
  split_and!; [reflexivity | right; left | by intros ?%elem_of_nil | reflexivity |].
  eexists. split; reflexivity.
Qed.

Lemma example_title_not_generated g c' :
  c' ∈ _get_available_language_codes example_settings → "title" ≠ format_name g c'.
Proof.
  change (c' ∈ ["nl"; "de"; "en"] → "title" ≠ format_name g c'). intros Hc.
  unfold format_name.
  repeat (apply elem_of_cons in Hc as [->|Hc]); [| | |by apply elem_of_nil in Hc];
    destruct g as [|a1 [|a2 [|a3 [|a4 [|a5 [|a6 g]]]]]]; simpl; intros H; by inversion H.
Qed.

Lemma class_construction_injects_witness :
  ∃ a' fm' formfield,
    example_class = Ok (a', fm') ∧ a' !! "title_nl" = Some (AField formfield).
Proof.
  pose (r := match example_class with Ok p => p | Raise _ => (∅, None) end).
  assert (Hr : example_class = Ok (r.1, r.2)) by (vm_compute; reflexivity).
  destruct (class_construction_injects example_settings example_get_model_form_field
              example_bases example_attrs r.1 r.2 _ example_model
              example_translations_model "title" "nl" eq_refl eq_refl eq_refl)
    as [formfield Hff];
    [by_evaluation | exact example_title_passes | exact example_title_not_generated
    | by_evaluation | exact Hr |].
  exists r.1, r.2, formfield. split; [exact Hr | exact Hff].
Defined.

(** X14.  Without any language configured for the site, and without
    placeholders: a form with a field list fails with [IndexError] as soon as
    one translated field passes the checks of the loop; a form without a
    field list ([fields] is [None] or ['__all__']) is constructed from its
    class dictionary as it stands, no form field is added. *)
Theorem class_construction_without_languages cfg gmff bases a fm model :
  _get_available_language_codes cfg = [] →
  bases_meta bases = Some fm →
  let st := {| attrs := a; form_meta := fm |} in
  o_model (form_new_meta st) = Some (Some model) →
  (∀ tm f_name kwargs,
     tm ∈ get_all_models model → f_name ∈ get_translated_fields tm →
     a !! f_name ≠ Some (APlaceholder kwargs)) →
  match l_fields (read_locals st) with
  | None => TranslatableModelFormMetaclass_new cfg gmff bases a = Ok (a, Some fm)
  | Some fields =>
      (∃ tm f_name,
         tm ∈ get_all_models model ∧ f_name ∈ get_translated_fields tm
         ∧ passes_checks (default ∅ (bases_base_fields bases)) (Some fields)
             (l_exclude (read_locals st)) a tm f_name) →
      TranslatableModelFormMetaclass_new cfg gmff bases a = Raise IndexError
  end.
Proof.
  intros Hcodes Hfm st Hmodel Hph.
  assert (Hnph : ∀ tm f, tm ∈ get_all_models model → f ∈ get_translated_fields tm →
            f ∉ (fst <$> filter (λ kv, is_placeholder (snd kv) = true) (map_to_list a))).
  { intros tm f Htm Hf [kw Hkw]%elem_of_placeholders. by apply (Hph tm f kw). }
  unfold TranslatableModelFormMetaclass_new. rewrite Hfm. fold st. rewrite Hmodel.
  destruct (l_fields (read_locals st)) as [fields|] eqn:Hfields.
  - intros (tm & f & Htm & Hf & Hbase & Hin & Hexcl & Hattr & fld & Hfld & Hed).
    rewrite (for_each_raises_unchanged _ _ st IndexError tm); [done| |done|].
    + intros tm' Htm'. unfold _handle_translation_model.
      assert (Hbody : ∀ y, y ∈ get_translated_fields tm' →
                handle_field cfg gmff bases tm' (default ∅ (bases_base_fields bases))
                  (fst <$> filter (λ kv, is_placeholder (snd kv) = true) (map_to_list a))
                  (read_locals st) y st = Ok st
                ∨ handle_field cfg gmff bases tm' (default ∅ (bases_base_fields bases))
                    (fst <$> filter (λ kv, is_placeholder (snd kv) = true) (map_to_list a))
                    (read_locals st) y st = Raise IndexError).
      { intros y Hy. rewrite handle_field_no_languages; [|done|done|by eapply Hnph].
        rewrite Hfields. destruct (_ && _); [by right | by left]. }
      destruct (for_each _ (get_translated_fields tm') st) as [s|e] eqn:Hrun.
      * left. f_equal. revert Hrun.
        apply (for_each_invariant (λ s, s = st)); [done|].
        intros y t t' Hy -> Hstep. destruct (Hbody y Hy); congruence.
      * right. f_equal.
        apply (for_each_Raise_inv (λ s, s = st)) in Hrun as (y & t & Hy & -> & Hraise);
          [|done|].
        -- destruct (Hbody y Hy); congruence.
        -- intros y t t' Hy -> Hstep. destruct (Hbody y Hy); congruence.
    + unfold _handle_translation_model.
      apply (for_each_raises_unchanged _ _ st IndexError f); [|done|].
      * intros y Hy. rewrite handle_field_no_languages; [|done|done|by eapply Hnph].
        rewrite Hfields. destruct (_ && _); [by right | by left].
      * rewrite handle_field_no_languages; [|done|done|by eapply Hnph].
        rewrite Hfields, Hfld, Hed. simpl in Hattr.
        rewrite !bool_decide_eq_true_2; done.
  - rewrite for_each_unchanged; [done|].
    intros tm Htm. unfold _handle_translation_model. apply for_each_unchanged.
    intros f Hf. rewrite handle_field_no_languages; [|done|done|by eapply Hnph].
    by rewrite Hfields.
Qed.

Lemma example_attrs_no_placeholder (tm : TranslationsModel) f_name kwargs :
  tm ∈ get_all_models example_model → f_name ∈ get_translated_fields tm →
  example_attrs !! f_name ≠ Some (APlaceholder kwargs).
Proof.
  intros _ _. unfold example_attrs.
  destruct (decide (f_name = "Meta")) as [->|Hne].
  - by rewrite lookup_singleton_eq.
  - by rewrite lookup_singleton_ne.
Qed.

Lemma class_construction_without_languages_witness :
  TranslatableModelFormMetaclass_new example_settings_no_site
    example_get_model_form_field example_bases example_attrs
  = Raise IndexError.
Proof.
  pose proof (class_construction_without_languages example_settings_no_site
                example_get_model_form_field example_bases example_attrs _
                example_model eq_refl eq_refl eq_refl example_attrs_no_placeholder)
    as Hraise.
  apply (Hraise :
    (∃ tm f_name,
       tm ∈ get_all_models example_model ∧ f_name ∈ get_translated_fields tm
       ∧ passes_checks (default ∅ (bases_base_fields example_bases))
           (Some ["title"; "slug"; "published"]) [] example_attrs tm f_name) →
    TranslatableModelFormMetaclass_new example_settings_no_site
      example_get_model_form_field example_bases example_attrs = Raise IndexError).
  exists example_translations_model, "title".
  split; [apply list_elem_of_here|]. split; [by_evaluation | exact example_title_passes].
Defined.

(** ** The form mixin: initial data and saving *)

(** X15.  [__init__] returns for every instance and never overwrites what
    [initial] already holds: the keys that were present keep their values
    (initial data given to the form wins over stored translations), every
    key it adds holds the field of an existing translation, and without an
    instance [initial] is left as it is. *)
Theorem form_init_keeps_initial cfg instance initial :
  ∃ initial',
    TranslatableModelFormMixin_init cfg instance initial = Ok initial'
    ∧ (∀ k v, initial !! k = Some v → initial' !! k = Some v)
    ∧ (∀ k v, initial !! k = None → initial' !! k = Some v →
         ∃ inst, instance = Some inst ∧ loadable cfg inst k v)
    ∧ (instance = None → initial' = initial).
Proof.
  destruct instance as [inst|].
  - destruct (init_returns cfg inst initial) as (initial' & Hrun).
    destruct (init_loads cfg inst initial initial' Hrun) as [Hkeep Hl].
    exists initial'. split_and!; [done | done | | done].
    intros k v Hnone Hsome. exists inst. split; [done|].
    destruct (Hl k) as [Heq|(w & Hw & Hload)]; congruence.
  - exists initial. split_and!; [done | done | | done]. intros k v; congruence.
Qed.

Lemma field_meta_Some_inv inst field meta :
  field_meta inst field = Some meta →
  meta ∈ inst_parler_meta inst ∧ field ∈ meta_translated_fields meta.
Proof.
  unfold field_meta. induction (inst_parler_meta inst) as [|m ms IH]; simpl; [done|].
  case_bool_decide.
  - intros [= <-]. split; [left | done].
  - intros [Hin Hf]%IH. split; [by right | done].
Qed.

(** X16.  Saving and loading round-trip: after [save_translated_fields], a
    form initialised with the saved instance holds, under the per-language
    key of a translated field and configured language whose key is
    unambiguous, the value that [cleaned_data] had there, unless the initial
    data of the form already has that key. *)
Theorem save_then_init_round_trip cfg active cleaned_data inst initial meta field c v :
  c ∈ _get_available_language_codes cfg →
  field_meta inst field = Some meta →
  key_unambiguous cfg inst meta field c →
  cleaned_data !! format_name field c = Some v →
  initial !! format_name field c = None →
  ∃ inst' initial',
    save_translated_fields cfg active cleaned_data inst = Ok inst'
    ∧ TranslatableModelFormMixin_init cfg (Some inst') initial = Ok initial'
    ∧ initial' !! format_name field c = Some v.
Proof.
  intros Hc Hmeta Huniq Hv Hini.
  destruct (field_meta_Some_inv _ _ _ Hmeta) as [Hm Hf].
  destruct (save_translated_fields_returns cfg cleaned_data active inst)
    as (inst' & Hsave & _ & [Hmetas _] & Hset).
  assert (Hfield : field ∈ _get_all_translated_fields_names inst).
  { apply list_elem_of_bind. by exists meta. }
  pose proof (Hset c field v Hc Hfield Hv) as Htv.
  unfold translated_value in Htv.
  assert (Hmeta' : field_meta inst' field = Some meta)
    by (unfold field_meta; by rewrite Hmetas).
  rewrite Hmeta' in Htv. simpl in Htv.
  destruct (_translations inst' !! (translations_name meta, c)) as [t|] eqn:Ht;
    simpl in Htv; [|done].
  assert (Hget : _get_translated_model inst' meta c = Ok t)
    by (unfold _get_translated_model; by rewrite Ht).
  assert (Hval : translation_getattr t field = v)
    by (unfold translation_getattr; by apply lookup_total_correct).
  destruct (init_returns cfg inst' initial) as (initial' & Hinit).
  exists inst', initial'. split_and!; [done..|].
  destruct (init_reaches cfg inst' initial initial' meta field c t)
    as (d & [_ Hd] & ->); [done | by rewrite Hmetas | done..|].
  f_equal. rewrite Hval.
  destruct (Hd (format_name field c)) as [->|(w & -> & Hload)];
    [by rewrite Hini|].
  simpl. destruct Hload as (m' & f' & c' & t' & Hm' & Hf' & Hc' & Ht' & Hkey & ->).
  rewrite Hmetas in Hm'.
  destruct (Huniq m' f' c') as (Hn & -> & ->); [done..|].
  unfold _get_translated_model in Ht'. rewrite Hn, Ht in Ht'. by injection Ht' as <-.
Qed.

Lemma save_then_init_round_trip_witness :
  ∃ inst' initial',
    save_translated_fields example_settings "en" example_cleaned_data example_instance
    = Ok inst'
    ∧ TranslatableModelFormMixin_init example_settings (Some inst') ∅ = Ok initial'
    ∧ initial' !! "title_nl" = Some (VStr "Hallo").
Proof.
  exact (save_then_init_round_trip example_settings "en" example_cleaned_data
           example_instance ∅ example_meta "title" "nl" (VStr "Hallo")
           ltac:(by_evaluation) eq_refl
           (example_key_unambiguous "title" "nl" ltac:(by_evaluation) ltac:(by_evaluation))
           eq_refl eq_refl).
Defined.

Section SaveFrame.

Variable cfg : Settings.
Variable cleaned_data : gmap string Value.

Lemma saved_around_refl inst : saved_around cfg inst inst.
Proof. by split_and!. Qed.

Lemma saved_around_trans a b c :
  saved_around cfg a b → saved_around cfg b c → saved_around cfg a c.
Proof.
  intros (H1 & H2 & H3 & H4) (H5 & H6 & H7 & H8). split_and!; [congruence..| |].
  - intros name l Hl. by rewrite H7, H3.
  - intros key Hkey. by apply H8, H4.
Qed.

Lemma saved_around_setattr inst field v :
  is_Some (field_meta inst field) →
  _current_language inst ∈ _get_available_language_codes cfg →
  saved_around cfg inst (setattr inst field v).
Proof.
  intros [m Hm] Hcur. unfold setattr. rewrite Hm. split_and!; simpl; [done..| |].
  - intros name c Hc. apply lookup_insert_ne. intros [= _ <-]. done.
  - intros key Hkey.
    destruct (decide ((translations_name m, _current_language inst) = key)) as [<-|Hne].
    + rewrite lookup_insert_eq. by eexists.
    + by rewrite lookup_insert_ne.
Qed.

(** The body of the inner loop of [save_translated_fields]. *)
Lemma save_field_cases c field inst inst' :
  c ∈ _get_available_language_codes cfg →
  (code_field ← dict_getitem (_get_translated_fields_names cfg field) c;
   match cleaned_data !! code_field with
   | None => Ok inst
   | Some value => Ok (setattr inst field value)
   end) = Ok inst' →
  inst' = inst
  ∨ ∃ v, cleaned_data !! format_name field c = Some v ∧ inst' = setattr inst field v.
Proof.
  intros Hc. rewrite dict_getitem_names by done. simpl.
  destruct (cleaned_data !! format_name field c) as [v|]; intros [= <-];
    [right; by exists v | by left].
Qed.

Lemma save_loops_invariant (P : Instance → Prop) inst inst' :
  P inst →
  (∀ i c, P i → P (set_current_language c i)) →
  (∀ i field v,
     P i → _current_language i ∈ _get_available_language_codes cfg →
     field ∈ _get_all_translated_fields_names i →
     cleaned_data !! format_name field (_current_language i) = Some v →
     P (setattr i field v)) →
  for_each
    (λ code inst,
       let inst := set_current_language code inst in
       for_each
         (λ field inst,
            code_field ← dict_getitem (_get_translated_fields_names cfg field) code;
            match cleaned_data !! code_field with
            | None => Ok inst
            | Some value => Ok (setattr inst field value)
            end)
         (_get_all_translated_fields_names inst) inst)
    (_get_available_language_codes cfg) inst = Ok inst' →
  P inst'.
Proof.
  intros Hinit Hlang Hset.
  apply for_each_invariant; [done|].
  intros c t t' Hc Ht. cbv zeta.
  set (t0 := set_current_language c t).
  apply (for_each_invariant
           (λ i, P i ∧ _current_language i = c
                 ∧ inst_parler_meta i = inst_parler_meta t0)).
  - split_and!; [by apply Hlang | done | done].
  - intros field i i' Hfield (Hi & Hcur & Hm) Hstep.
    apply save_field_cases in Hstep as [->|(v & Hv & ->)]; [done | | done].
    split_and!.
    + apply Hset; [done | by rewrite Hcur | | by rewrite Hcur].
      unfold _get_all_translated_fields_names in *. by rewrite Hm.
    + by rewrite setattr_current_language.
    + by rewrite setattr_parler_meta.
Qed.

Lemma save_loops_saved_around inst inst' :
  for_each
    (λ code inst,
       let inst := set_current_language code inst in
       for_each
         (λ field inst,
            code_field ← dict_getitem (_get_translated_fields_names cfg field) code;
            match cleaned_data !! code_field with
            | None => Ok inst
            | Some value => Ok (setattr inst field value)
            end)
         (_get_all_translated_fields_names inst) inst)
    (_get_available_language_codes cfg) inst = Ok inst' →
  saved_around cfg inst inst'.
Proof.
  apply (save_loops_invariant (saved_around cfg inst)).
  - apply saved_around_refl.
  - intros i c Hi. eapply saved_around_trans; [exact Hi|]. by split_and!.
  - intros i field v Hi Hcur Hfield _. eapply saved_around_trans; [exact Hi|].
    apply saved_around_setattr; [by apply field_meta_Some | done].
Qed.

(** Assigning the value that is already there changes nothing. *)
Lemma setattr_same inst field v :
  translated_value inst (_current_language inst) field = Some v →
  setattr inst field v = inst.
Proof.
  unfold translated_value, setattr.
  destruct (field_meta inst field) as [m|]; simpl; [|done].
  destruct (_translations inst !! (translations_name m, _current_language inst))
    as [t|] eqn:Ht; simpl; [|done].
  intros Hv. rewrite (insert_id t) by done. rewrite insert_id by done.
  by destruct inst.
Qed.

Lemma same_data_translated_value i j c field :
  same_data i j → translated_value i c field = translated_value j c field.
Proof.
  intros (Hm & Ht & _). unfold translated_value, field_meta. by rewrite Hm, Ht.
Qed.

Lemma save_loops_fixed inst1 inst inst' :
  (∀ c field v,
     c ∈ _get_available_language_codes cfg →
     field ∈ _get_all_translated_fields_names inst1 →
     cleaned_data !! format_name field c = Some v →
     translated_value inst1 c field = Some v) →
  same_data inst inst1 →
  for_each
    (λ code inst,
       let inst := set_current_language code inst in
       for_each
         (λ field inst,
            code_field ← dict_getitem (_get_translated_fields_names cfg field) code;
            match cleaned_data !! code_field with
            | None => Ok inst
            | Some value => Ok (setattr inst field value)
            end)
         (_get_all_translated_fields_names inst) inst)
    (_get_available_language_codes cfg) inst = Ok inst' →
  same_data inst' inst1.
Proof.
  intros Hheld Hsame.
  apply (save_loops_invariant (λ i, same_data i inst1)); [done | by intros i c | ].
  intros i field v Hi Hcur Hfield Hv.
  rewrite setattr_same; [done|].
  rewrite (same_data_translated_value i inst1) by done.
  apply Hheld; [done| |done].
  unfold _get_all_translated_fields_names in *. by rewrite <- (proj1 Hi).
Qed.

End SaveFrame.

(** X17.  Saving leaves the rest of the instance alone: the registry and the
    ordinary attributes are as before, the translations of languages that
    are not configured for the site are as before, and no translation is
    removed. *)
Theorem save_translated_fields_frame cfg active cleaned_data inst :
  ∃ inst',
    save_translated_fields cfg active cleaned_data inst = Ok inst'
    ∧ inst_parler_meta inst' = inst_parler_meta inst
    ∧ inst_dict inst' = inst_dict inst
    ∧ (∀ name c, c ∉ _get_available_language_codes cfg →
         _translations inst' !! (name, c) = _translations inst !! (name, c))
    ∧ (∀ key, is_Some (_translations inst !! key) → is_Some (_translations inst' !! key)).
Proof.
  destruct (save_translated_fields_returns cfg cleaned_data active inst)
    as (inst' & Hsave & _).
  exists inst'. split; [done|].
  unfold save_translated_fields in Hsave.
  destruct (for_each _ _ inst) as [i|] eqn:Hloops; simpl in Hsave; [|done].
  injection Hsave as <-.
  apply save_loops_saved_around in Hloops. exact Hloops.
Qed.

(** X18.  Saving is idempotent: saving the same cleaned data again into the
    instance that a save returned returns that instance unchanged. *)
Theorem save_translated_fields_idempotent cfg active cleaned_data inst inst1 :
  save_translated_fields cfg active cleaned_data inst = Ok inst1 →
  save_translated_fields cfg active cleaned_data inst1 = Ok inst1.
Proof.
  intros Hsave.
  destruct (save_translated_fields_returns cfg cleaned_data active inst)
    as (i1 & Hsave' & Hcur & [Hmetas _] & Hheld).
  rewrite Hsave in Hsave'. injection Hsave' as <-.
  destruct (save_translated_fields_returns cfg cleaned_data active inst1)
    as (inst2 & Hsave2 & Hcur2 & _).
  rewrite Hsave2. f_equal.
  unfold save_translated_fields in Hsave2.
  destruct (for_each _ _ inst1) as [i|] eqn:Hloops; simpl in Hsave2; [|done].
  injection Hsave2 as <-.
  apply (save_loops_fixed cfg cleaned_data inst1) in Hloops as (Hm & Ht & Hd);
    [| |done].
  - destruct i, inst1. simpl in *. by subst.
  - intros c field v Hc Hfield Hv. apply Hheld; [done| |done].
    unfold _get_all_translated_fields_names in *. by rewrite <- Hmetas.
Qed.

Lemma save_translated_fields_idempotent_witness :
  ∃ inst1,
    save_translated_fields example_settings "en" example_cleaned_data example_instance
    = Ok inst1
    ∧ save_translated_fields example_settings "en" example_cleaned_data inst1 = Ok inst1.
Proof.
  destruct (save_translated_fields example_settings "en" example_cleaned_data
              example_instance) as [inst1|e] eqn:Hsave.
  - exists inst1. split; [reflexivity|].
    exact (save_translated_fields_idempotent _ _ _ _ _ Hsave).
  - vm_compute in Hsave. discriminate Hsave.
Defined.

(** ** Class construction: the generated field, exactly *)

Section Exact.

Variable cfg : Settings.
Variable _get_model_form_field :
  TranslationsModel → string → option AttrValue → Kwargs → FormField.
Variable bases : Bases.
Variable loc : Locals.
Variable tm : TranslationsModel.

Lemma stores_refl a : stores cfg _get_model_form_field bases loc tm a a.
Proof. intros k. by left. Qed.

Lemma stores_trans a b c :
  stores cfg _get_model_form_field bases loc tm a b →
  stores cfg _get_model_form_field bases loc tm b c →
  stores cfg _get_model_form_field bases loc tm a c.
Proof.
  intros Hab Hbc k.
  destruct (Hbc k) as [Heq|[(-> & m & m' & Hm & Hm')|Hgen]].
  - rewrite Heq. apply Hab.
  - destruct (Hab "Meta") as [Heq|[(_ & m0 & m1 & Hm0 & Hm1)|(g & c0 & _ & _ & _ & Hv)]].
    + right; left. split; [done|]. exists m, m'. by rewrite <- Heq.
    + right; left. split; [done|]. by exists m0, m'.
    + unfold stored_field in Hv. congruence.
  - by right; right.
Qed.

Lemma stores_None a a' k :
  stores cfg _get_model_form_field bases loc tm a a' → a' !! k = None → a !! k = None.
Proof.
  intros Hch Hk.
  destruct (Hch k) as [<-|[(_ & m & m' & _ & ?)|(g & c & _ & _ & _ & ?)]]; congruence.
Qed.

Lemma store_translated_fields_stores f_name names a :
  f_name ∈ get_translated_fields tm →
  names ⊆ _get_translated_fields_names cfg f_name →
  stores cfg _get_model_form_field bases loc tm a
    (store_translated_fields cfg _get_model_form_field tm f_name
       (l_formfield_callback loc) (field_kwargs bases (l_widgets loc) f_name) names a).
Proof.
  intros Hf. revert a. induction names as [|[c t_name] rest IH]; intros a Hsub; simpl.
  - apply stores_refl.
  - eapply stores_trans; [|apply IH; intros p Hp; apply Hsub; by right].
    assert (Hin : (c, t_name) ∈ _get_translated_fields_names cfg f_name)
      by (apply Hsub; left).
    apply list_elem_of_fmap in Hin as (c' & [= <- ->] & Hc).
    intros k. destruct (decide (k = format_name f_name c)) as [->|Hne].
    + right; right. exists f_name, c. split_and!; [done..|]. apply lookup_insert_eq.
    + left. by apply lookup_insert_ne.
Qed.

Lemma store_translated_fields_exact f_name names a c :
  (c, format_name f_name c) ∈ names →
  names ⊆ _get_translated_fields_names cfg f_name →
  store_translated_fields cfg _get_model_form_field tm f_name
    (l_formfield_callback loc) (field_kwargs bases (l_widgets loc) f_name) names a
    !! format_name f_name c
  = Some (stored_field cfg _get_model_form_field bases loc tm f_name c).
Proof.
  assert (Hkeep : ∀ names a,
    names ⊆ _get_translated_fields_names cfg f_name →
    a !! format_name f_name c = Some (stored_field cfg _get_model_form_field bases loc tm f_name c) →
    store_translated_fields cfg _get_model_form_field tm f_name
      (l_formfield_callback loc) (field_kwargs bases (l_widgets loc) f_name) names a
      !! format_name f_name c
    = Some (stored_field cfg _get_model_form_field bases loc tm f_name c)).
  { clear names a. induction names as [|[c' t_name] rest IH]; intros a Hsub Ha; [done|].
    simpl. apply IH; [intros p Hp; apply Hsub; by right|].
    assert (Hin : (c', t_name) ∈ _get_translated_fields_names cfg f_name)
      by (apply Hsub; left).
    apply list_elem_of_fmap in Hin as (c0 & [= <- ->] & Hc).
    destruct (decide (format_name f_name c' = format_name f_name c)) as [Heq|Hne].
    - rewrite Heq, lookup_insert_eq. apply format_name_inj in Heq as ->. done.
    - by rewrite lookup_insert_ne. }
  revert a. induction names as [|[c' t_name] rest IH]; intros a Hin Hsub.
  - by apply elem_of_nil in Hin.
  - simpl. assert (Hrest : rest ⊆ _get_translated_fields_names cfg f_name)
      by (intros p Hp; apply Hsub; by right).
    apply elem_of_cons in Hin as [Heq|Hin]; [|by apply IH].
    injection Heq as <- <-. apply Hkeep; [done|]. apply lookup_insert_eq.
Qed.

Lemma set_form_new_meta_fields_stores value st st' :
  set_form_new_meta_fields value st = Ok st' →
  stores cfg _get_model_form_field bases loc tm (attrs st) (attrs st').
Proof.
  unfold set_form_new_meta_fields.
  destruct (attrs st !! "Meta") as [[| |m|]|] eqn:Hm; intros [= <-]; simpl;
    [|apply stores_refl].
  intros k. destruct (decide (k = "Meta")) as [->|Hne].
  - right; left. split; [done|]. eexists _, _. split; [done|]. apply lookup_insert_eq.
  - left. by apply lookup_insert_ne.
Qed.

Lemma handle_field_stores base_fields translated_fields f_name st st' :
  f_name ∈ get_translated_fields tm →
  handle_field cfg _get_model_form_field bases tm base_fields translated_fields
    loc f_name st = Ok st' →
  stores cfg _get_model_form_field bases loc tm (attrs st) (attrs st').
Proof.
  intros Hf. unfold handle_field.
  case_bool_decide; [done|].
  destruct (_ && _); [|intros [= <-]; apply stores_refl].
  destruct (get_field tm f_name) as [fld|]; simpl; [|done].
  destruct (editable fld); simpl; [|intros [= <-]; apply stores_refl].
  destruct (l_fields loc) as [fields|]; simpl.
  - destruct (zip_second _) as [replacement|]; simpl; [|done].
    destruct (_replace_field _ _ _) as [new_fields|]; simpl; [|done].
    destruct (set_form_new_meta_fields _ st) as [st1|] eqn:Hset; simpl; [|done].
    intros [= <-]. simpl.
    eapply stores_trans; [by eapply set_form_new_meta_fields_stores|].
    by apply (store_translated_fields_stores f_name).
  - intros [= <-]. simpl. by apply (store_translated_fields_stores f_name).
Qed.

End Exact.

(** X19.  For a model with one translations model: when class construction
    returns, the entry of a translated field that passes the checks of the
    loop, under its name for a configured language, is the form field that
    [_get_model_form_field] builds with the [formfield_callback] of the class
    dictionary and with the widget declared for the field in [Meta.widgets],
    updated with the kwargs of a placeholder that a base class declares under
    the field's name; it is localized for that language.  The field's name
    is not itself a generated name, and no other translated field generates
    the same per-language name. *)
Theorem class_construction_stores cfg gmff bases a a' fm' fm model tm f_name c :
  bases_meta bases = Some fm →
  let st := {| attrs := a; form_meta := fm |} in
  o_model (form_new_meta st) = Some (Some model) →
  get_all_models model = [tm] →
  f_name ∈ get_translated_fields tm →
  passes_checks (default ∅ (bases_base_fields bases))
    (l_fields (read_locals st)) (l_exclude (read_locals st)) a tm f_name →
  (∀ g c', c' ∈ _get_available_language_codes cfg → f_name ≠ format_name g c') →
  (∀ g c', g ∈ get_translated_fields tm → c' ∈ _get_available_language_codes cfg →
           format_name g c' = format_name f_name c → g = f_name) →
  c ∈ _get_available_language_codes cfg →
  TranslatableModelFormMetaclass_new cfg gmff bases a = Ok (a', fm') →
  a' !! format_name f_name c
  = Some (AField (localized cfg
                    (gmff tm f_name (a !! "formfield_callback")
                       (field_kwargs bases (l_widgets (read_locals st)) f_name))
                    c)).
Proof.
  intros Hfm st Hmodel Htms Hf (Hbase & Hfields & Hexcl & Hattr & fld & Hfld & Hed)
    Hfresh Hunique Hc Hnew.
  revert Hnew. unfold TranslatableModelFormMetaclass_new.
  rewrite Hfm. fold st. rewrite Hmodel, Htms. cbn [for_each].
  unfold _handle_translation_model. cbv zeta.
  change (a !! "formfield_callback") with (l_formfield_callback (read_locals st)).
  revert Hfields Hexcl. generalize (read_locals st) as loc. intros loc Hfields Hexcl.
  change (AField (localized cfg
            (gmff tm f_name (l_formfield_callback loc)
               (field_kwargs bases (l_widgets loc) f_name)) c))
    with (stored_field cfg gmff bases loc tm f_name c).
  destruct (for_each _ _ st) as [st1|] eqn:Hrun; [|done].
  simpl. intros [= <- <-].
  pose (M := λ s s' : State, stores cfg gmff bases loc tm (attrs s) (attrs s')).
  assert (Hstep : ∀ y t t', y ∈ get_translated_fields tm →
            handle_field cfg gmff bases tm (default ∅ (bases_base_fields bases))
              (fst <$> filter (λ kv, is_placeholder (snd kv) = true) (map_to_list a))
              loc y t = Ok t' → M t t').
  { intros y t t' Hy. by apply handle_field_stores. }
  assert (Hrefl : ∀ s, M s s) by (intros s; apply stores_refl).
  assert (Htrans : ∀ s1 s2 s3, M s1 s2 → M s2 s3 → M s1 s3)
    by (intros s1 s2 s3; apply stores_trans).
  destruct (for_each_element M Hrefl Htrans _ _ _ _ f_name Hstep Hrun Hf)
    as (t & t' & Ht & Hbody & Ht').
  assert (Hnone : attrs t !! f_name = None).
  { destruct (Ht f_name) as [->|[(_ & m & m' & Hm & _)|(g & c' & _ & Hc' & Heq & _)]].
    - done.
    - simpl in Hm. congruence.
    - by destruct (Hfresh g c'). }
  assert (Hph : f_name ∉ (fst <$> filter (λ kv, is_placeholder (snd kv) = true)
                                    (map_to_list a))).
  { intros [kw Hkw]%elem_of_placeholders. congruence. }
  assert (Hkey : format_name f_name c ≠ "Meta") by apply format_name_ne_Meta.
  assert (Hstored : attrs t' !! format_name f_name c
                    = Some (stored_field cfg gmff bases loc tm f_name c)).
  { unfold handle_field in Hbody.
    rewrite bool_decide_eq_false_2 in Hbody by done.
    rewrite !bool_decide_eq_true_2 in Hbody by done.
    simpl in Hbody. rewrite Hfld in Hbody. simpl in Hbody. rewrite Hed in Hbody.
    simpl in Hbody.
    match type of Hbody with
    | (?r ≫= _) = _ => destruct r as [t1|] eqn:Ht1; simpl in Hbody; [|done]
    end.
    injection Hbody as <-. simpl.
    apply (store_translated_fields_exact cfg gmff bases loc tm f_name); [|done].
    apply list_elem_of_fmap. by exists c. }
  destruct (Ht' (format_name f_name c))
    as [Hsame|[(Heq & _)|(g & c' & Hg & Hc' & Heq & Hv)]].
  { simpl in Hsame. rewrite Hsame. exact Hstored. }
  { by destruct Hkey. }
  assert (g = f_name) as -> by (by apply (Hunique g c')).
  apply format_name_inj in Heq as <-. exact Hv.
Qed.

Lemma example_widgets_title_passes :
  passes_checks (default ∅ (bases_base_fields example_bases_placeholder))
    (Some ["title"; "slug"; "published"]) [] example_attrs_widgets
    example_translations_model "title".
Proof.
  split_and!; [reflexivity | right; left | by intros ?%elem_of_nil | reflexivity |].
  eexists. split; reflexivity.
Qed.

Lemma example_title_nl_unique g c' :
  g ∈ get_translated_fields example_translations_model →
  c' ∈ _get_available_language_codes example_settings →
  format_name g c' = format_name "title" "nl" → g = "title".
Proof.
  change (g ∈ ["title"; "slug"] → c' ∈ ["nl"; "de"; "en"] →
          format_name g c' = "title_nl" → g = "title").
  intros Hg _ Heq.
  apply elem_of_cons in Hg as [->|Hg]; [done|].
  apply list_elem_of_singleton in Hg as ->. by inversion Heq.
Qed.

Lemma class_construction_stores_witness :
  ∃ a' fm',
    TranslatableModelFormMetaclass_new example_settings example_get_model_form_field
      example_bases_placeholder example_attrs_widgets = Ok (a', fm')
    ∧ a' !! "title_nl"
      = Some (AField {| required := false; label := "title (nl)";
                        language_code := Some "nl";
                        ff_kwargs := {[ "label" := "Title" ]}
                                     ∪ {[ "widget" := "Textarea" ]} |}).
Proof.
  pose (new := TranslatableModelFormMetaclass_new example_settings
                 example_get_model_form_field example_bases_placeholder
                 example_attrs_widgets).
  pose (r := match new with Ok p => p | Raise _ => (∅, None) end).
  assert (Hr : new = Ok (r.1, r.2)) by (vm_compute; reflexivity).
  exists r.1, r.2. split; [exact Hr|].
  exact (class_construction_stores example_settings example_get_model_form_field
           example_bases_placeholder example_attrs_widgets r.1 r.2 _ example_model
           example_translations_model "title" "nl" eq_refl eq_refl eq_refl
           ltac:(by_evaluation) example_widgets_title_passes
           example_title_not_generated example_title_nl_unique
           ltac:(by_evaluation) Hr).
Defined.
